(** * RxBot routing kernel ([src/core/Router.ts]): model and properties

    The kernel is written against RxJS 5: a router is an object whose
    [getRoute$] maps a routable to an [Observable<Route>], and the
    combinators are operator pipelines over such observables.

    Modelling choices.
    - An observable is the tree of what a subscription to it does, in order:
      deliver a value ([Next]), finish ([Complete], [Error]), stay silent
      forever ([Never]), or touch the mutable state of the program around
      it ([Do], [Read]).  Delivery is synchronous: the consumer handles a
      value before the producer goes on, which is the order RxJS follows
      for [Observable.of], [Observable.from] and the operators used here.
      Timing (promises and observables that deliver in a later turn of the
      event loop) is outside the model.
    - Closing a subscription does not stop a producer that is running: it
      goes on to its end, and what it sends is dropped ([silent]).  What
      stops is what looks whether its subscriber is still open ([IfOpen]):
      [concatMap] and [flatMap] map no value once they are closed.  They
      attach an inner subscription to their own only when the call to
      [subscribe] has returned, so an inner observable that is running
      finds its subscriber open ([inner]).  Hence after [take(1)] the
      router that delivered the route runs on to its end, and the routers
      after it are not asked.
    - An operator that ends before its source ([take], [takeWhile], a
      [map] whose callback throws, a [concatMap] or [flatMap] whose inner
      observable fails) sends its [Complete] or [Error] at once in RxJS;
      in the tree the ending stands where the source has come to rest.
      On an ending the kernel does nothing that touches the state of the
      program before that (a [concatMap] goes on to its next value when
      the call that delivered the last one has returned), so the two
      orders leave the same state and the same record.
    - The sources of [concatMap] in the kernel are arrays; what such a
      source does while an inner observable stays open is not modelled.
    - Calling a router's [getRoute$] and subscribing to what it returns
      happen together in the code, so the effects of the call stand at the
      head of the tree.
    - JavaScript numbers are exact rationals ([Q]); [===] on numbers is
      [Qeq_bool].  NaN and the infinities are outside the model.
    - An action closure is opaque: a value of an abstract type [Action].
    - The calls to [konsole.log] are left out. *)

From Stdlib Require Import QArith Lqa.
From stdpp Require Import base option list strings gmap.

Local Open Scope Q_scope.

(** ** JavaScript numbers *)

Abbreviation number := Q.

(** [a === b] on numbers. *)
Definition strictEq (a b : number) : bool := Qeq_bool a b.

(** [a < b] and [a > b] on numbers. *)
Definition ltb (a b : number) : bool := negb (Qle_bool b a).
Definition gtb (a b : number) : bool := ltb b a.

(** ** Observables *)

(** How a subscription ended, as seen by its consumer.  [Pending]: neither
    [complete] nor [error] was ever delivered. *)
Inductive Ending : Type :=
| Completed
| Failed (e : string)
| Pending.

(** Everything a consumer received from one subscription. *)
Record Emission (A : Type) : Type := Emit {
  values : list A;
  ending : Ending
}.
Arguments Emit {A} _ _.
Arguments values {A} _.
Arguments ending {A} _.

(** A value computed by a callback, or the exception it threw. *)
Inductive Result (A : Type) : Type :=
| Ok (a : A)
| Throw (msg : string).
Arguments Ok {A} _.
Arguments Throw {A} _.

Module Rx.

(** What a subscription does, step by step, over the state [S] of the
    program.  [IfOpen k closed]: here the producer depends on whether its
    subscriber is still open; if it is, the producer goes on as [k], and
    if it has been closed, all that still happens is [closed]. *)
Inductive Observable (S A : Type) : Type :=
| Complete
| Error (e : string)
| Never
| Next (a : A) (k : Observable S A)
| Do (f : S -> S) (k : Observable S A)
| Read (f : S -> Observable S A)
| IfOpen (k : Observable S A) (closed : S -> S).
Arguments Complete {S A}.
Arguments Error {S A} _.
Arguments Never {S A}.
Arguments Next {S A} _ _.
Arguments Do {S A} _ _.
Arguments Read {S A} _.
Arguments IfOpen {S A} _ _.

Section Operators.
Context {S : Type}.

(** [Observable.of(a)] *)
Definition of_ {A} (a : A) : Observable S A := Next a Complete.

(** [Observable.from(array)] *)
Fixpoint from {A} (l : list A) : Observable S A :=
  match l with
  | [] => Complete
  | a :: l' => Next a (from l')
  end.

(** [.filter(p)] *)
Fixpoint filter {A} (p : A -> bool) (o : Observable S A) : Observable S A :=
  match o with
  | Complete => Complete
  | Error e => Error e
  | Never => Never
  | Next a k => if p a then Next a (filter p k) else filter p k
  | Do f k => Do f (filter p k)
  | Read f => Read (fun s => filter p (f s))
  | IfOpen k c => IfOpen (filter p k) c
  end.

(** [.filter(x => !!x)] over an array that may hold [null]/[undefined]
    entries: only the present ones pass. *)
Fixpoint filterPresent {A} (o : Observable S (option A)) : Observable S A :=
  match o with
  | Complete => Complete
  | Error e => Error e
  | Never => Never
  | Next (Some a) k => Next a (filterPresent k)
  | Next None k => filterPresent k
  | Do f k => Do f (filterPresent k)
  | Read f => Read (fun s => filterPresent (f s))
  | IfOpen k c => IfOpen (filterPresent k) c
  end.

(** What a producer still does once its subscriber is closed: it goes
    on, but whatever it sends is dropped. *)
Fixpoint silent {A} (o : Observable S A) (s : S) : S :=
  match o with
  | Complete => s
  | Error _ => s
  | Never => s
  | Next _ k => silent k s
  | Do f k => silent k (f s)
  | Read f => silent (f s) s
  | IfOpen _ c => c s
  end.

(** [o] as [concatMap] and [flatMap] subscribe to it.  They attach the
    inner subscription to their own only when the call to [subscribe] has
    returned, so while it runs the inner observable finds its subscriber
    open, whatever has happened downstream. *)
Fixpoint inner {A} (o : Observable S A) : Observable S A :=
  match o with
  | Complete => Complete
  | Error e => Error e
  | Never => Never
  | Next a k => Next a (inner k)
  | Do f k => Do f (inner k)
  | Read f => Read (fun s => inner (f s))
  | IfOpen k _ => inner k
  end.

(** [.map(f)]; an exception thrown by [f] becomes the error of the
    stream, which closes the subscription to the source. *)
Fixpoint map {A B} (f : A -> Result B) (o : Observable S A) : Observable S B :=
  match o with
  | Complete => Complete
  | Error e => Error e
  | Never => Never
  | Next a k =>
      match f a with
      | Ok b => Next b (map f k)
      | Throw msg => Do (silent k) (Error msg)
      end
  | Do g k => Do g (map f k)
  | Read g => Read (fun s => map f (g s))
  | IfOpen k c => IfOpen (map f k) c
  end.

(** [first] followed, once it completes, by [rest], which is what the
    source of a [concatMap] still has to give.  An error of [first] closes
    the subscription to that source. *)
Fixpoint concat {A} (first rest : Observable S A) : Observable S A :=
  match first with
  | Complete => rest
  | Error e => Do (silent rest) (Error e)
  | Never => Never
  | Next a k => Next a (concat k rest)
  | Do f k => Do f (concat k rest)
  | Read f => Read (fun s => concat (f s) rest)
  | IfOpen k c => IfOpen (concat k rest) (fun s => silent rest (c s))
  end.

(** [.concatMap(f)]: the inner observable of a value is built and
    subscribed only when the inner observable of the previous value has
    completed.  A value that arrives when the operator is closed is
    dropped, and [f] is not called on it. *)
Fixpoint concatMap {A B} (f : A -> Observable S B) (o : Observable S A)
  : Observable S B :=
  match o with
  | Complete => Complete
  | Error e => Error e
  | Never => Never
  | Next a k => IfOpen (concat (inner (f a)) (concatMap f k)) (silent k)
  | Do g k => Do g (concatMap f k)
  | Read g => Read (fun s => concatMap f (g s))
  | IfOpen k c => IfOpen (concatMap f k) c
  end.

(** [o], which can no longer complete because an inner subscription of a
    [flatMap] is still open. *)
Fixpoint hang {A} (o : Observable S A) : Observable S A :=
  match o with
  | Complete => Never
  | Error e => Error e
  | Never => Never
  | Next a k => Next a (hang k)
  | Do f k => Do f (hang k)
  | Read f => Read (fun s => hang (f s))
  | IfOpen k c => IfOpen (hang k) c
  end.

(** [first] merged with what follows it in a [flatMap]: unlike [concat],
    an inner observable that stays silent does not hold back [rest]. *)
Fixpoint merge {A} (first rest : Observable S A) : Observable S A :=
  match first with
  | Complete => rest
  | Error e => Do (silent rest) (Error e)
  | Never => hang rest
  | Next a k => Next a (merge k rest)
  | Do f k => Do f (merge k rest)
  | Read f => Read (fun s => merge (f s) rest)
  | IfOpen k c => IfOpen (merge k rest) (fun s => silent rest (c s))
  end.

(** [.flatMap(f)] *)
Fixpoint flatMap {A B} (f : A -> Observable S B) (o : Observable S A)
  : Observable S B :=
  match o with
  | Complete => Complete
  | Error e => Error e
  | Never => Never
  | Next a k => IfOpen (merge (inner (f a)) (flatMap f k)) (silent k)
  | Do g k => Do g (flatMap f k)
  | Read g => Read (fun s => flatMap f (g s))
  | IfOpen k c => IfOpen (flatMap f k) c
  end.

(** [.take(n)]: with the [n]-th value it completes and closes the
    subscription to its source, which goes on in silence. *)
Fixpoint take {A} (n : nat) (o : Observable S A) : Observable S A :=
  match n with
  | O => Complete
  | Datatypes.S n' =>
      match o with
      | Complete => Complete
      | Error e => Error e
      | Never => Never
      | Next a k =>
          Next a match n' with
                 | O => Do (silent k) Complete
                 | Datatypes.S _ => take n' k
                 end
      | Do f k => Do f (take n k)
      | Read f => Read (fun s => take n (f s))
      | IfOpen k c => IfOpen (take n k) c
      end
  end.

(** [.takeWhile(p)]; [p] is a closure and may read variables of the
    enclosing scope, hence the state argument.  With the first value that
    fails [p] it completes and closes the subscription to its source. *)
Fixpoint takeWhile {A} (p : S -> A -> bool) (o : Observable S A)
  : Observable S A :=
  match o with
  | Complete => Complete
  | Error e => Error e
  | Never => Never
  | Next a k =>
      Read (fun s => if p s a then Next a (takeWhile p k)
                     else Do (silent k) Complete)
  | Do f k => Do f (takeWhile p k)
  | Read f => Read (fun s => takeWhile p (f s))
  | IfOpen k c => IfOpen (takeWhile p k) c
  end.

(** [.defaultIfEmpty(d)] *)
Fixpoint defaultIfEmpty {A} (d : A) (o : Observable S A) : Observable S A :=
  match o with
  | Complete => Next d Complete
  | Error e => Error e
  | Never => Never
  | Next a k => Next a k
  | Do f k => Do f (defaultIfEmpty d k)
  | Read f => Read (fun s => defaultIfEmpty d (f s))
  | IfOpen k c => IfOpen (defaultIfEmpty d k) c
  end.

(** [.subscribe(next, error, complete)], run to the end. *)
Fixpoint subscribe {A} (o : Observable S A)
    (next : A -> S -> S) (error : string -> S -> S) (complete : S -> S)
    (s : S) : S :=
  match o with
  | Complete => complete s
  | Error e => error e s
  | Never => s
  | Next a k => subscribe k next error complete (next a s)
  | Do f k => subscribe k next error complete (f s)
  | Read f => subscribe (f s) next error complete s
  | IfOpen k _ => subscribe k next error complete s
  end.

(** A subscription that only records what it is sent. *)
Fixpoint run {A} (o : Observable S A) (s : S) : S * Emission A :=
  match o with
  | Complete => (s, Emit [] Completed)
  | Error e => (s, Emit [] (Failed e))
  | Never => (s, Emit [] Pending)
  | Next a k =>
      let '(s', Emit vs e) := run k s in (s', Emit (a :: vs) e)
  | Do f k => run k (f s)
  | Read f => run (f s) s
  | IfOpen k _ => run k s
  end.

(** The values of [l], then [k]. *)
Fixpoint nexts {A} (l : list A) (k : Observable S A) : Observable S A :=
  match l with
  | [] => k
  | a :: l' => Next a (nexts l' k)
  end.

End Operators.

(** The same observable inside a larger state [T] of which [S] is one
  component (the variables a closure adds around a subscription). *)
Fixpoint within {S T A} (get : T -> S) (put : S -> T -> T)
  (o : Observable S A) : Observable T A :=
match o with
| Complete => Complete
| Error e => Error e
| Never => Never
| Next a k => Next a (within get put k)
| Do f k => Do (fun t => put (f (get t)) t) (within get put k)
| Read f => Read (fun t => within get put (f (get t)))
| IfOpen k c => IfOpen (within get put k) (fun t => put (c (get t)) t)
end.

(** [new Observable(observer => { o.subscribe(next, error, complete) })].
    The variables of the closure, the observer among them, make a state
    [T] around the state [S] of the program ([get], [put]); [o] and the
    three callbacks work on [T], and [sent] is what the observer has been
    sent so far.  What a callback sends to the observer is delivered at
    once.  The body installs its teardown when the call to [subscribe] has
    returned, so closing the observer does not close the subscription to
    [o], which runs to its end. *)
Section Create.
Context {S T A B : Type}.
Context (get : T -> S) (put : S -> T -> T) (sent : T -> Emission B).
Context (next : A -> T -> T) (error : string -> T -> T) (complete : T -> T).

(** What the observer was sent between [t] and [t']. *)
Definition news (t t' : T) : list B :=
  drop (length (values (sent t))) (values (sent t')).

(** How the observer stands when [o] has come to rest. *)
Definition outcome (t : T) : Observable S B :=
  match ending (sent t) with
  | Completed => Complete
  | Failed e => Error e
  | Pending => Never
  end.

(** The subscription of the body to [o], the variables of the closure
    being [t]: after each step of [o], the observer's news are handed
    on. *)
Fixpoint relay (o : Observable T A) (t : T) : Observable S B :=
  match o with
  | Complete =>
      Read (fun s =>
        let t0 := put s t in
        let t' := complete t0 in
        Do (fun _ => get t') (nexts (news t0 t') (outcome t')))
  | Error e =>
      Read (fun s =>
        let t0 := put s t in
        let t' := error e t0 in
        Do (fun _ => get t') (nexts (news t0 t') (outcome t')))
  | Never => outcome t
  | Next a k =>
      Read (fun s =>
        let t0 := put s t in
        let t' := next a t0 in
        Do (fun _ => get t') (nexts (news t0 t') (relay k t')))
  | Do f k =>
      Read (fun s =>
        let t' := f (put s t) in
        Do (fun _ => get t') (relay k t'))
  | Read f => Read (fun s => relay (f (put s t)) (put s t))
  | IfOpen k _ => relay k t
  end.

(** [init s]: the variables of the closure as the body sets them up when
    the program is in state [s]. *)
Definition create (init : S -> T) (o : Observable T A) : Observable S B :=
  Read (fun s => relay o (init s)).

(** [keeps_sent o]: the producer [o] does not touch the observer. *)
Inductive keeps_sent : Observable T A -> Prop :=
| keeps_sent_Complete : keeps_sent Complete
| keeps_sent_Error e : keeps_sent (Error e)
| keeps_sent_Never : keeps_sent Never
| keeps_sent_Next a k : keeps_sent k -> keeps_sent (Next a k)
| keeps_sent_Do f k :
    (forall t, sent (f t) = sent t) -> keeps_sent k -> keeps_sent (Do f k)
| keeps_sent_Read f : (forall t, keeps_sent (f t)) -> keeps_sent (Read f)
| keeps_sent_IfOpen k c :
    keeps_sent k -> (forall t, sent (c t) = sent t) -> keeps_sent (IfOpen k c).

End Create.

End Rx.

(** ** The observer handed to the body of [new Observable(...)]:
    notifications after [complete] or [error] are dropped. *)

Definition observer_next {A} (a : A) (o : Emission A) : Emission A :=
  match ending o with
  | Pending => Emit (values o ++ [a]) Pending
  | _ => o
  end.

Definition observer_complete {A} (o : Emission A) : Emission A :=
  match ending o with
  | Pending => Emit (values o) Completed
  | _ => o
  end.

Definition observer_error {A} (e : string) (o : Emission A) : Emission A :=
  match ending o with
  | Pending => Emit (values o) (Failed e)
  | _ => o
  end.

(** What the consumer of an observable makes of everything it delivered:
    [next] on each value in turn, then the callback of the ending. *)
Definition deliver {T A} (next : A -> T -> T) (error : string -> T -> T)
    (complete : T -> T) (em : Emission A) (t : T) : T :=
  let t' := foldl (fun t a => next a t) t (values em) in
  match ending em with
  | Completed => complete t'
  | Failed e => error e t'
  | Pending => t'
  end.

(** ** JavaScript values, as far as the normalisation code inspects them *)

#[warnings="-register-all"]
Inductive JsValue : Type :=
| JUndefined
| JNull
| JBool (b : bool)
| JNumber (n : number)
| JString (s : string)
| JObject (props : list (string * JsValue)).

(** [o.key] for an object with own properties [props] (one binding per
    key); a missing property reads as [undefined]. *)
Fixpoint prop (key : string) (props : list (string * JsValue)) : JsValue :=
  match props with
  | [] => JUndefined
  | (k, v) :: rest => if String.eqb k key then v else prop key rest
  end.

(** Truthiness, as tested by [if (v)], [!!v] and [v || d]. *)
Definition truthy (v : JsValue) : bool :=
  match v with
  | JUndefined | JNull => false
  | JBool b => b
  | JNumber n => negb (strictEq n 0)
  | JString s => negb (String.eqb s "")
  | JObject _ => true
  end.

(** [v !== undefined] *)
Definition defined (v : JsValue) : bool :=
  match v with
  | JUndefined => false
  | _ => true
  end.

(** [typeof v] *)
Definition typeof (v : JsValue) : string :=
  match v with
  | JUndefined => "undefined"
  | JNull => "object"
  | JBool _ => "boolean"
  | JNumber _ => "number"
  | JString _ => "string"
  | JObject _ => "object"
  end.

(** ** Routes and matches *)

Record ActionRoute (Action : Type) : Type := {
  action : Action;
  score : number
}.
Arguments action {Action} _.
Arguments score {Action} _.

Record NoRoute : Type := {
  reason : string
}.

(** [Route = ActionRoute | NoRoute]; the constructor is the [type] tag. *)
Inductive Route (Action : Type) : Type :=
| RouteAction (r : ActionRoute Action)
| RouteNo (r : NoRoute).
Arguments RouteAction {Action} _.
Arguments RouteNo {Action} _.

(** [route.type === 'action'] *)
Definition isAction {Action} (route : Route Action) : bool :=
  match route with
  | RouteAction _ => true
  | RouteNo _ => false
  end.

(** [MatchResult = Match | NoMatch], after normalisation. *)
Inductive MatchResult : Type :=
| Match (value : JsValue) (score : number)
| NoMatch (reason : string).

(** [T | Observable<T> | Promise<T>]; a promise is given by how it
    settles. *)
Inductive Observableable (S A : Type) : Type :=
| Plain (a : A)
| Observed (o : Rx.Observable S A)
| Promised (settled : Result A).
Arguments Plain {S A} _.
Arguments Observed {S A} _.
Arguments Promised {S A} _.

Definition toObservable {S A} (t : Observableable S A) : Rx.Observable S A :=
  match t with
  | Observed o => o
  | Promised (Ok a) => Rx.of_ a
  | Promised (Throw e) => Rx.Error e
  | Plain a => Rx.of_ a
  end.

(** ** class Router *)

Record Router (S Routable Action : Type) : Type := {
  getRoute : Routable -> Rx.Observable S (Route Action)
}.
Arguments getRoute {S Routable Action} _ _.

(** The variables of one subscription to [getRouteBest$]: the local
    [bestRoute], the [observer] of the observable under construction, and
    the state of the program around it. *)
Record BestScope (S Action : Type) : Type := {
  bestRoute : ActionRoute Action;
  observer : Emission (Route Action);
  world : S
}.
Arguments bestRoute {S Action} _.
Arguments observer {S Action} _.
Arguments world {S Action} _.

Definition defaultReason : string := "none".

Definition combineScore (score otherScore : number) : number :=
  score * otherScore.

(** [isMatch]: [match.reason === undefined] *)
Definition isMatch (m : MatchResult) : bool :=
  match m with
  | Match _ _ => true
  | NoMatch _ => false
  end.

Definition normalizeMatchResult (response : JsValue) : Result MatchResult :=
  match response with
  | JUndefined | JNull | JBool false =>
      (* response == null || response === false *)
      Ok (NoMatch defaultReason)
  | JObject props =>
      let reason := prop "reason" props in
      if truthy reason then
        match reason with
        | JString r => Ok (NoMatch r)
        | _ => Throw "The reason for NoMatch must be a string"
        end
      else
        let value := prop "value" props in
        if defined value then
          match prop "score" props with
          | JUndefined => Ok (Match value 1)
          | JNumber n => Ok (Match value (if truthy (JNumber n) then n else 1))
          | _ => Throw "The score for Match must be a number"
          end
        else Ok (Match response 1)
  | _ => Ok (Match response 1)
  end.

(** The callback that [predicateToMatcher] maps over the predicate's
    responses.  Reading [.reason] off [null] (whose [typeof] is
    ["object"]) is a TypeError of the language. *)
Definition predicateResponse (response : JsValue) : Result JsValue :=
  match response with
  | JBool _ => Ok response
  | JNull => Throw "TypeError: Cannot read property 'reason' of null"
  | JObject props =>
      if truthy (prop "reason" props) then Ok response
      else if defined (prop "value" props) then
        match prop "value" props with
        | JBool false => Ok (JBool false)
        | JBool true => Ok response
        | _ => Throw "When returning a Match from a predicate, the value must be true or false"
        end
      else Throw "A predicate may only return true, false, a Match of true or false, or a NoMatch"
  | _ => Throw "A predicate may only return true, false, a Match of true or false, or a NoMatch"
  end.

Section Kernel.
Context {S Routable Action : Type}.

Local Abbreviation Route := (Route Action).
Local Abbreviation ActionRoute := (ActionRoute Action).
Local Abbreviation Router := (Router S Routable Action).
Local Abbreviation Scope := (BestScope S Action).

Definition GetRoute : Type := Routable -> Rx.Observable S Route.
Definition Handler : Type := Routable -> Action.
Definition Matcher : Type := Routable -> Observableable S JsValue.
Definition Predicate : Type := Matcher.

(** [actionRoute(action, score = 1)] *)
Definition actionRoute (action : Action) (score : option number) : ActionRoute :=
  {| action := action; score := default 1 score |}.

(** [noRoute(reason = Router.defaultReason)] *)
Definition noRoute (reason : option string) : NoRoute :=
  {| reason := default defaultReason reason |}.

Definition routeWithCombinedScore (route : ActionRoute) (newScore : number)
  : ActionRoute :=
  let score' := combineScore newScore (score route) in
  if strictEq (score route) score'
  then route
  else {| action := action route; score := score' |}.

(** The closure of [minRoute], which only prints a warning. *)
Context (warnNeverCalled : Action).

Definition minRoute : ActionRoute := actionRoute warnNeverCalled (Some 0).

Definition getRouteNo (reason : option string) : GetRoute :=
  fun routable => Rx.of_ (RouteNo (noRoute reason)).

Definition getRouteDo (handler : Handler) (score : option number) : GetRoute :=
  fun routable => Rx.of_ (RouteAction (actionRoute (handler routable) score)).

Definition getRouteFirst (routers : list (option Router)) : GetRoute :=
  fun routable =>
    Rx.defaultIfEmpty (RouteNo (noRoute (Some "tryInOrder")))
      (Rx.take 1
        (Rx.filter isAction
          (Rx.concatMap (fun router => getRoute router routable)
            (Rx.filterPresent (Rx.from routers))))).

(** The three callbacks of the subscription inside [getRouteBest$].  The
    value handed to [next] is annotated [ActionRoute] but may be the
    no-route of [defaultIfEmpty]: its [score] is then [undefined], and
    [undefined > n] is false. *)
Definition best_next (route : Route) (st : Scope) : Scope :=
  match route with
  | RouteAction r =>
      if gtb (score r) (score (bestRoute st)) then
        let st' := {| bestRoute := r; observer := observer st; world := world st |} in
        if strictEq (score r) 1 then
          {| bestRoute := r;
             observer := observer_complete (observer_next (RouteAction r) (observer st'));
             world := world st' |}
        else st'
      else st
  | RouteNo _ => st
  end.

Definition best_error (e : string) (st : Scope) : Scope :=
  {| bestRoute := bestRoute st;
     observer := observer_error e (observer st);
     world := world st |}.

Definition best_complete (st : Scope) : Scope :=
  {| bestRoute := bestRoute st;
     observer :=
       observer_complete
         (if gtb (score (bestRoute st)) 0
          then observer_next (RouteAction (bestRoute st)) (observer st)
          else observer st);
     world := world st |}.

Definition set_world (w : S) (st : Scope) : Scope :=
  {| bestRoute := bestRoute st; observer := observer st; world := w |}.

(** The teardown that the body of [new Observable(observer => ...)]
    returns has nothing left to stop: when the body returns, the inner
    subscription has come to rest, since delivery is synchronous. *)
Definition getRouteBest (routers : list (option Router)) : GetRoute :=
  fun routable =>
    Rx.create world set_world observer best_next best_error best_complete
      (fun s => {| bestRoute := minRoute; observer := Emit [] Pending; world := s |})
      (Rx.defaultIfEmpty (RouteNo (noRoute (Some "tryInScoreOrder")))
        (Rx.filter isAction
          (Rx.concatMap
            (fun router => Rx.within world set_world (getRoute router routable))
            (Rx.takeWhile (fun st _ => ltb (score (bestRoute st)) 1)
              (Rx.filterPresent (Rx.from routers)))))).

Definition getRouteIfMatches (matcher : Matcher)
    (getThenRouter : Routable -> JsValue -> Router)
    (getElseRouter : option (Routable -> string -> Router)) : GetRoute :=
  let getElseRouter :=
    default (fun (routable : Routable) (reason : string) =>
               {| getRoute := getRouteNo (Some reason) |})
            getElseRouter in
  fun routable =>
    Rx.flatMap
      (fun matchResult =>
         match matchResult with
         | Match value score =>
             Rx.map
               (fun route =>
                  Ok match route with
                     | RouteAction r => RouteAction (routeWithCombinedScore r score)
                     | RouteNo _ => route
                     end)
               (getRoute (getThenRouter routable value) routable)
         | NoMatch reason =>
             getRoute (getElseRouter routable reason) routable
         end)
      (Rx.map normalizeMatchResult (toObservable (matcher routable))).

Definition predicateToMatcher (predicate : Predicate) : Matcher :=
  fun routable =>
    Observed (Rx.map predicateResponse (toObservable (predicate routable))).

Definition getRouteIfTrue (predicate : Predicate)
    (getThenRouter : Routable -> JsValue -> Router)
    (getElseRouter : option (Routable -> string -> Router)) : GetRoute :=
  fun routable =>
    getRouteIfMatches (predicateToMatcher predicate) getThenRouter getElseRouter
      routable.

End Kernel.

(** ** Routes as objects

    [routeWithCombinedScore] hands back either its argument or a new
    object.  To tell the two apart, routes live in a store and are passed
    by reference; an object literal allocates at the next free address. *)

Abbreviation Ref := nat.
Abbreviation Store Action := (list (ActionRoute Action)).

Definition allocate {Action} (h : Store Action) (o : ActionRoute Action)
  : Store Action * Ref :=
  (h ++ [o], length h).

Definition routeWithCombinedScore_ref {Action} (h : Store Action)
    (route : Ref) (newScore : number) : option (Store Action * Ref) :=
  match h !! route with
  | Some r =>
      let score' := combineScore newScore (score r) in
      Some (if strictEq (score r) score'
            then (h, route)
            else allocate h {| action := action r; score := score' |})
  | None => None
  end.

(** ** The earlier helper [matchize] (src/unnamed/part_004) *)

Module Legacy.

Definition toFilteredObservable {S} (t : Observableable S JsValue)
  : Rx.Observable S JsValue :=
  match t with
  | Plain a => if truthy a then Rx.of_ a else Rx.Complete
  | Observed o => Rx.filter truthy o
  | Promised (Ok a) => Rx.filter truthy (Rx.of_ a)
  | Promised (Throw e) => Rx.Error e
  end.

Definition matchize {S} (matcher : JsValue -> Observableable S JsValue)
    (message : JsValue) : Rx.Observable S JsValue :=
  Rx.map
    (fun m => Ok (if String.eqb (typeof m) "boolean" then message else m))
    (toFilteredObservable (matcher message)).

End Legacy.

(** ** Vocabulary of the statements *)

Section Vocabulary.
Context {S Routable Action : Type}.

Local Abbreviation Route := (Route Action).
Local Abbreviation ActionRoute := (ActionRoute Action).
Local Abbreviation Router := (Router S Routable Action).

(** [resolves_in_order x routers s routes s']: asked for [x] one after the
    other, each from the state its predecessor left, the routers of the
    list all complete; together they deliver [routes], in this order, and
    leave the state [s'].  Absent entries of the list are passed over. *)
Inductive resolves_in_order (x : Routable)
  : list (option Router) -> S -> list Route -> S -> Prop :=
| resolves_nil s :
    resolves_in_order x [] s [] s
| resolves_absent routers s routes s' :
    resolves_in_order x routers s routes s' ->
    resolves_in_order x (None :: routers) s routes s'
| resolves_cons r routers s s1 first rest s' :
    Rx.run (getRoute r x) s = (s1, Emit first Completed) ->
    resolves_in_order x routers s1 rest s' ->
    resolves_in_order x (Some r :: routers) s (first ++ rest) s'.


(** The route kept when the candidate [r] meets the current best [b]:
    [if (route.score > bestRoute.score) bestRoute = route]. *)
Definition keep_better (b r : ActionRoute) : ActionRoute :=
  if gtb (score r) (score b) then r else b.

(** The best route after the candidates [cands] were met in order,
    starting from [b]. *)
Definition champion (b : ActionRoute) (cands : list ActionRoute) : ActionRoute :=
  foldl keep_better b cands.

(** The actionable routes among [routes], in order. *)
Fixpoint candidates (routes : list Route) : list ActionRoute :=
  match routes with
  | [] => []
  | RouteAction r :: rest => r :: candidates rest
  | RouteNo _ :: rest => candidates rest
  end.

(** What the then-branch of [getRouteIfMatches$] makes of a route of the
    then-router, for a match of score [sc]. *)
Definition rescored (sc : number) (route : Route) : Route :=
  match route with
  | RouteAction r => RouteAction (routeWithCombinedScore r sc)
  | RouteNo _ => route
  end.

End Vocabulary.

(** ** Routers to try the combinators on

    The state is a log of the routers that were asked: a spy appends its
    number to the log when its [getRoute$] is called, and then answers as
    told. *)

Module Examples.

Abbreviation Log := (list nat).

Definition spy (i : nat) (answer : Route string) : Router Log string string :=
  {| getRoute := fun _ => Rx.Do (fun log => log ++ [i]) (Rx.of_ answer) |}.


(** A router whose resolution fails. *)
Definition broken (i : nat) : Router Log string string :=
  {| getRoute := fun _ => Rx.Do (fun log => log ++ [i]) (Rx.Error "boom") |}.

Definition no (why : string) : Route string := RouteNo {| reason := why |}.

Definition act (name : string) (sc : number) : Route string :=
  RouteAction {| action := name; score := sc |}.

(** A matcher that answers [{ value: v, score: sc }]. *)
Definition scoredMatcher (v : string) (sc : number)
  : string -> Observableable unit JsValue :=
  fun _ => Plain (JObject [("value", JString v); ("score", JNumber sc)]).

End Examples.

(** ** The rest of class Router

    Here the action of a route is run, so a closure [() => Observableable]
    is given by what calling it and subscribing to its result does: an
    observable over the state of the program.  A handler applied to a
    routable is such a closure. *)

Section Execution.
Context {S Routable V : Type}.

Local Abbreviation Action := (Rx.Observable S V).
Local Abbreviation Route := (Route Action).
Local Abbreviation Router := (Router S Routable Action).

(** [Router.route$] *)
Definition route (routable : Routable) (router : Router) : Rx.Observable S bool :=
  Rx.flatMap
    (fun r =>
       match r with
       | RouteAction a => Rx.map (fun _ => Ok true) (action a)
       | RouteNo _ => Rx.of_ false
       end)
    (getRoute router routable).

Definition getRouteNoop (handler : Routable -> Action)
  : Routable -> Rx.Observable S Route :=
  fun routable =>
    Rx.map (fun _ => Ok (RouteNo (noRoute (Some "noop")))) (handler routable).

Definition getRouteBefore (beforeHandler : Routable -> Action) (router : Router)
  : Routable -> Rx.Observable S Route :=
  fun routable =>
    Rx.map
      (fun r =>
         Ok match r with
            | RouteAction a =>
                RouteAction
                  {| action := Rx.flatMap (fun _ => action a) (beforeHandler routable);
                     score := score a |}
            | RouteNo _ => r
            end)
      (getRoute router routable).

Definition getRouteAfter (afterHandler : Routable -> Action) (router : Router)
  : Routable -> Rx.Observable S Route :=
  fun routable =>
    Rx.map
      (fun r =>
         Ok match r with
            | RouteAction a =>
                RouteAction
                  {| action := Rx.flatMap (fun _ => afterHandler routable) (action a);
                     score := score a |}
            | RouteNo _ => r
            end)
      (getRoute router routable).

End Execution.

Section Fallbacks.
Context {S Routable Action : Type}.

Local Abbreviation Route := (Route Action).
Local Abbreviation Router := (Router S Routable Action).

Definition getRouteDefault (mainRouter : Router)
    (getDefaultRouter : Routable -> string -> Router)
  : Routable -> Rx.Observable S Route :=
  fun routable =>
    Rx.flatMap
      (fun r =>
         match r with
         | RouteAction _ => Rx.of_ r
         | RouteNo n => getRoute (getDefaultRouter routable (reason n)) routable
         end)
      (getRoute mainRouter routable).

(** What [mapKeyToRouter[key]] evaluates to. *)
Inductive Looked : Type :=
| Own (router : Router)
| Inherited
| Missing.

(** The names that the object [mapKeyToRouter] inherits from its prototype
    (for an object literal: [toString], [constructor], ...).  Looking one of
    them up gives a value that is neither [undefined] nor a router. *)
Context (inherited : string -> bool).

Definition lookupRouter (mapKeyToRouter : gmap string Router) (key : string)
  : Looked :=
  match mapKeyToRouter !! key with
  | Some router => Own router
  | None => if inherited key then Inherited else Missing
  end.

Definition getRouteSwitch (getKey : Routable -> Observableable S string)
    (mapKeyToRouter : gmap string Router)
  : Routable -> Rx.Observable S Route :=
  fun routable =>
    Rx.flatMap
      (fun router =>
         match router with
         | Missing => Rx.of_ (RouteNo (noRoute None))
         | Own r => getRoute r routable
         | Inherited => Rx.Error "TypeError: router.getRoute$ is not a function"
         end)
      (Rx.map (fun key => Ok (lookupRouter mapKeyToRouter key))
         (toObservable (getKey routable))).

End Fallbacks.

(** The object that [normalizeMatchResult] returns for a match result:
    [{ value, score }] or [{ reason }]. *)
Definition resultObject (m : MatchResult) : JsValue :=
  match m with
  | Match value sc => JObject [("value", value); ("score", JNumber sc)]
  | NoMatch why => JObject [("reason", JString why)]
  end.

(** [delivers_just o s a s']: subscribed in state [s], [o] delivers the
    single value [a], in state [s'], and completes with it (as
    [Observable.of(a)] does, after whatever producing [a] has done). *)
Inductive delivers_just {S A : Type}
  : Rx.Observable S A -> S -> A -> S -> Prop :=
| delivers_just_of a s :
    delivers_just (Rx.Next a Rx.Complete) s a s
| delivers_just_do f k s a s' :
    delivers_just k (f s) a s' ->
    delivers_just (Rx.Do f k) s a s'
| delivers_just_read f s a s' :
    delivers_just (f s) s a s' ->
    delivers_just (Rx.Read f) s a s'
| delivers_just_open k c s a s' :
    delivers_just k s a s' ->
    delivers_just (Rx.IfOpen k c) s a s'.


(** ** The earlier router (src/unnamed/part_004)

    Its routes carry an optional score and no tag; a router that has
    nothing to propose delivers no route at all. *)

Module RxMore.

(** [.reduce(f, seed)]: delivers the accumulated value when the source
    completes (the seed, if the source was empty). *)
Fixpoint reduce {S A B} (f : B -> A -> B) (seed : B) (o : Rx.Observable S A)
  : Rx.Observable S B :=
  match o with
  | Rx.Complete => Rx.Next seed Rx.Complete
  | Rx.Error e => Rx.Error e
  | Rx.Never => Rx.Never
  | Rx.Next a k => reduce f (f seed a) k
  | Rx.Do g k => Rx.Do g (reduce f seed k)
  | Rx.Read g => Rx.Read (fun s => reduce f seed (g s))
  | Rx.IfOpen k c => Rx.IfOpen (reduce f seed k) c
  end.

End RxMore.

Module LegacyRouter.

Record Route (Action : Type) : Type := {
  score : option number;
  action : Action
}.
Arguments score {Action} _.
Arguments action {Action} _.

Record IRouter (S Action : Type) : Type := {
  getRoute : JsValue -> Rx.Observable S (Route Action)
}.
Arguments getRoute {S Action} _ _.

Section Combinators.
Context {S Action : Type}.

Local Abbreviation Route := (Route Action).
Local Abbreviation IRouter := (IRouter S Action).
Local Abbreviation Handler := (JsValue -> Action).

Definition simpleRouter (handler : Handler) : IRouter :=
  {| getRoute := fun message =>
       Rx.of_ {| action := handler message; score := None |} |}.

(** [isRouter(r) ? r : simpleRouter(r)] *)
Definition routerize (r : IRouter + Handler) : IRouter :=
  match r with
  | inl router => router
  | inr handler => simpleRouter handler
  end.

(** [filteredRouter$] *)
Definition filteredRouter (routers : list (option (IRouter + Handler)))
  : Rx.Observable S IRouter :=
  Rx.map (fun router => Ok (routerize router))
    (Rx.filterPresent (Rx.from routers)).

(** [first]; its [flatMap(..., 1)] admits one inner subscription at a
    time, which is [concatMap]. *)
Definition first (routers : list (option (IRouter + Handler))) : IRouter :=
  {| getRoute := fun message =>
       Rx.take 1
         (Rx.concatMap (fun router => getRoute router message)
            (filteredRouter routers)) |}.

(** [route.score === undefined ? 1 : route.score] *)
Definition scoreOr1 (route : Route) : number := default 1 (score route).

(** The closure of the earlier [minRoute], which only prints a message. *)
Context (neverCalled : Action).

Definition minRoute : Route := {| score := Some 0; action := neverCalled |}.

(** The reducer of [best]; [Math.min] of a single number is that number. *)
Definition better (prev current : Route) : Route :=
  if gtb (scoreOr1 prev) (scoreOr1 current) then prev else current.

Definition best (routers : list (option (IRouter + Handler))) : IRouter :=
  {| getRoute := fun message =>
       RxMore.reduce better minRoute
         (Rx.flatMap (fun router => getRoute router message)
            (filteredRouter routers)) |}.

Definition prependMatcher
    (matcher : JsValue -> Observableable S JsValue) (router : IRouter) : IRouter :=
  {| getRoute := fun message =>
       Rx.flatMap (fun m => getRoute router m) (Legacy.matchize matcher message) |}.

End Combinators.

(** [routeMessage]: the action of a route is given by what calling it
    does. *)
Definition routeMessage {S V} (router : IRouter S (Rx.Observable S V))
    (message : JsValue) : Rx.Observable S V :=
  Rx.flatMap (fun route => action route) (getRoute router message).

(** [answer_in_order message routers s routes s']: asked for [message] one
    after the other, each from the state its predecessor left, the routers
    of the list all complete; together they deliver [routes], in this
    order, and leave the state [s']. *)
Inductive answer_in_order {S Action : Type} (message : JsValue)
  : list (option (IRouter S Action + (JsValue -> Action))) -> S ->
    list (Route Action) -> S -> Prop :=
| answer_nil s :
    answer_in_order message [] s [] s
| answer_absent routers s routes s' :
    answer_in_order message routers s routes s' ->
    answer_in_order message (None :: routers) s routes s'
| answer_cons r routers s s1 first rest s' :
    Rx.run (getRoute (routerize r) message) s = (s1, Emit first Completed) ->
    answer_in_order message routers s1 rest s' ->
    answer_in_order message (Some r :: routers) s (first ++ rest) s'.

End LegacyRouter.

(** What [getRouteBefore$] and [getRouteAfter$] may change of a route: the
    action of an actionable route, and nothing else. *)
Definition same_but_action {Action} (r r' : Route Action) : Prop :=
  match r with
  | RouteNo _ => r' = r
  | RouteAction a => exists a', r' = RouteAction a' /\ score a' = score a
  end.

(** What the then-branch may change of a route of the then-router, for a
    match score in [0, 1]: the score of an actionable route, which stays
    in [0, 1] and does not grow. *)
Definition same_or_lower_score {Action} (r r' : Route Action) : Prop :=
  match r with
  | RouteNo _ => r' = r
  | RouteAction a =>
      exists a', r' = RouteAction a' /\ action a' = action a /\
                 0 <= score a' /\ score a' <= score a
  end.

(** What the observer of [getRouteBest$] can have received: nothing while
    it is open, and never more than one route, actionable and of a score
    above 0. *)
Definition sound_answer {Action} (o : Emission (Route Action)) : Prop :=
  (ending o = Pending -> values o = []) /\
  (length (values o) <= 1)%nat /\
  Forall (fun route => exists r, route = RouteAction r /\ 0 < score r) (values o).

(** ** More routers to try the combinators on *)

Module MoreExamples.

Abbreviation Log := (list nat).

(** A closure that leaves its number in the log and delivers
    [undefined]. *)
Definition logging (i : nat) : Rx.Observable Log JsValue :=
  Rx.Do (fun log => log ++ [i]) (Rx.of_ JUndefined).

(** A closure that leaves its number in the log and fails. *)
Definition failing (i : nat) : Rx.Observable Log JsValue :=
  Rx.Do (fun log => log ++ [i]) (Rx.Error "boom").

(** A router that leaves its number in the log and answers as told. *)
Definition asked (i : nat) (answer : Route (Rx.Observable Log JsValue))
  : Router Log string (Rx.Observable Log JsValue) :=
  {| getRoute := fun _ => Rx.Do (fun log => log ++ [i]) (Rx.of_ answer) |}.


Definition doing (i : nat) (sc : number) : Route (Rx.Observable Log JsValue) :=
  RouteAction {| action := logging i; score := sc |}.

Definition declining (why : string) : Route (Rx.Observable Log JsValue) :=
  RouteNo {| reason := why |}.

(** The names every object literal inherits from [Object.prototype]. *)
Definition objectPrototype (key : string) : bool :=
  existsb (String.eqb key)
    ["constructor"; "hasOwnProperty"; "isPrototypeOf"; "propertyIsEnumerable";
     "toLocaleString"; "toString"; "valueOf"; "__proto__";
     "__defineGetter__"; "__defineSetter__"; "__lookupGetter__";
     "__lookupSetter__"].

(** An earlier router that leaves its number in the log and delivers the
    routes it is given. *)
Definition proposing (i : nat) (routes : list (LegacyRouter.Route string))
  : LegacyRouter.IRouter Log string :=
  {| LegacyRouter.getRoute :=
       fun _ => Rx.Do (fun log => log ++ [i]) (Rx.from routes) |}.


Definition scored (name : string) (sc : number) : LegacyRouter.Route string :=
  {| LegacyRouter.score := Some sc; LegacyRouter.action := name |}.

End MoreExamples.

(** * Properties *)

(** ** Numbers *)

Lemma strictEq_true a b : strictEq a b = true <-> a == b.
Proof. apply Qeq_bool_iff. Qed.

Lemma strictEq_false a b : strictEq a b = false <-> ~ a == b.
Proof.
  unfold strictEq. rewrite <- Qeq_bool_iff.
  destruct (Qeq_bool a b); split; intros; congruence.
Qed.

Lemma ltb_true a b : ltb a b = true <-> a < b.
Proof.
  unfold ltb. rewrite negb_true_iff.
  destruct (Qle_bool b a) eqn:E.
  - apply Qle_bool_iff in E. split; [discriminate | intros; lra].
  - split; [intros _ | reflexivity].
    destruct (Qlt_le_dec a b) as [|H]; [assumption|].
    apply Qle_bool_iff in H. congruence.
Qed.

Lemma ltb_false a b : ltb a b = false <-> b <= a.
Proof.
  destruct (ltb a b) eqn:E.
  - apply ltb_true in E. split; [discriminate | intros; lra].
  - split; [intros _ | reflexivity].
    destruct (Qlt_le_dec a b) as [H|]; [|assumption].
    apply ltb_true in H. congruence.
Qed.

Lemma gtb_true a b : gtb a b = true <-> b < a.
Proof. apply ltb_true. Qed.

Lemma gtb_false a b : gtb a b = false <-> a <= b.
Proof. apply ltb_false. Qed.

(** ** Observables *)

Section RxFacts.
Context {S : Type}.
Implicit Types s : S.

Lemma run_next {A} (a : A) (k : Rx.Observable S A) s :
  Rx.run (Rx.Next a k) s =
  (fst (Rx.run k s),
   Emit (a :: values (snd (Rx.run k s))) (ending (snd (Rx.run k s)))).
Proof. simpl. destruct (Rx.run k s) as [s' [vs e]]. reflexivity. Qed.

Lemma run_from {A} (l : list A) s :
  Rx.run (Rx.from l) s = (s, Emit l Completed).
Proof.
  induction l as [|a l IH]; [reflexivity|].
  cbn [Rx.from]. rewrite run_next, IH. reflexivity.
Qed.

Lemma run_nexts {A} (l : list A) (k : Rx.Observable S A) s :
  Rx.run (Rx.nexts l k) s =
  (fst (Rx.run k s),
   Emit (l ++ values (snd (Rx.run k s))) (ending (snd (Rx.run k s)))).
Proof.
  induction l as [|a l IH]; cbn [Rx.nexts].
  - destruct (Rx.run k s) as [s' [vs e]]. reflexivity.
  - rewrite run_next, IH. reflexivity.
Qed.

(** A default that the consumer ignores makes no difference. *)
Lemma subscribe_defaultIfEmpty_ignored {A} (d : A) (o : Rx.Observable S A)
    next error complete s :
  (forall s, next d s = s) ->
  Rx.subscribe (Rx.defaultIfEmpty d o) next error complete s =
  Rx.subscribe o next error complete s.
Proof.
  intros Hd. revert s.
  induction o as [| | |a k IH|f k IH|f IH|k IH c]; intros s; cbn; auto.
  rewrite Hd. reflexivity.
Qed.

Lemma subscribe_filter {A} (p : A -> bool) (o : Rx.Observable S A)
    next error complete s :
  Rx.subscribe (Rx.filter p o) next error complete s =
  Rx.subscribe o (fun a s => if p a then next a s else s) error complete s.
Proof.
  revert s.
  induction o as [| | |a k IH|f k IH|f IH|k IH c]; intros s; cbn; auto.
  destruct (p a); cbn; auto.
Qed.

Lemma subscribe_ext {A} (o : Rx.Observable S A) next next' error complete s :
  (forall a s, next a s = next' a s) ->
  Rx.subscribe o next error complete s =
  Rx.subscribe o next' error complete s.
Proof.
  intros E. revert s.
  induction o as [| | |a k IH|f k IH|f IH|k IH c]; intros s; cbn; auto.
  rewrite E. auto.
Qed.

(** An open subscription does not see where its producer looks whether it
    is open. *)
Lemma run_inner {A} (o : Rx.Observable S A) s :
  Rx.run (Rx.inner o) s = Rx.run o s.
Proof.
  revert s.
  induction o as [| | |a k IH|f k IH|f IH|k IH c]; intros s; cbn; auto.
  rewrite IH. reflexivity.
Qed.

Lemma subscribe_inner {A} (o : Rx.Observable S A) next error complete s :
  Rx.subscribe (Rx.inner o) next error complete s =
  Rx.subscribe o next error complete s.
Proof.
  revert s.
  induction o as [| | |a k IH|f k IH|f IH|k IH c]; intros s; cbn; auto.
Qed.

(** Closed after its subscription started, an inner observable of
    [concatMap] or [flatMap] still does all it would have done. *)
Lemma silent_inner {A} (o : Rx.Observable S A) s :
  Rx.silent (Rx.inner o) s = fst (Rx.run o s).
Proof.
  revert s.
  induction o as [| | |a k IH|f k IH|f IH|k IH c]; intros s; cbn; auto.
  rewrite IH. destruct (Rx.run k s) as [s' [vs e]]. reflexivity.
Qed.


(** An array does nothing but deliver. *)
Lemma silent_from {A} (l : list (option A)) s :
  Rx.silent (Rx.filterPresent (Rx.from l)) s = s.
Proof. induction l as [|[a|] l IH]; cbn; auto. Qed.

Lemma silent_takeWhile_from {A} (p : S -> A -> bool) (l : list (option A)) s :
  Rx.silent (Rx.takeWhile p (Rx.filterPresent (Rx.from l))) s = s.
Proof.
  induction l as [|[a|] l IH]; cbn; auto.
  destruct (p s a); cbn; [exact IH|apply silent_from].
Qed.

Lemma silent_concatMap_from {A B} (f : A -> Rx.Observable S B)
    (l : list (option A)) s :
  Rx.silent (Rx.concatMap f (Rx.filterPresent (Rx.from l))) s = s.
Proof.
  induction l as [|[a|] l IH]; cbn; auto. apply silent_from.
Qed.


Lemma subscribe_concat {A} (o1 o2 : Rx.Observable S A)
    next error complete s :
  (forall s', Rx.silent o2 s' = s') ->
  Rx.subscribe (Rx.concat o1 o2) next error complete s =
  Rx.subscribe o1 next error (Rx.subscribe o2 next error complete) s.
Proof.
  intros Hrest. revert s.
  induction o1 as [| | |a k IH|f k IH|f IH|k IH c]; intros s; cbn; auto.
  rewrite Hrest. reflexivity.
Qed.

End RxFacts.

Section WithinFacts.
Context {S T A : Type} (get : T -> S) (put : S -> T -> T).
Context (next : A -> T -> T).
Hypothesis get_put : forall s t, get (put s t) = s.
Hypothesis put_get : forall t, put (get t) t = t.
Hypothesis put_put : forall s s' t, put s (put s' t) = put s t.
Hypothesis next_put : forall a s t, next a (put s t) = put s (next a t).
Hypothesis get_next : forall a t, get (next a t) = get t.

(** A consumer whose [next] leaves the component [S] alone sees an
    observable over [S] as if it had run first and delivered afterwards. *)
Lemma subscribe_within (o : Rx.Observable S A) error complete t :
  Rx.subscribe (Rx.within get put o) next error complete t =
  deliver next error complete (snd (Rx.run o (get t)))
    (put (fst (Rx.run o (get t))) t).
Proof.
  revert t.
  induction o as [| | |a k IH|f k IH|f IH|k IH c]; intros t; cbn [Rx.within Rx.subscribe].
  - unfold deliver. cbn. rewrite put_get. reflexivity.
  - unfold deliver. cbn. rewrite put_get. reflexivity.
  - unfold deliver. cbn. rewrite put_get. reflexivity.
  - rewrite IH, get_next, run_next. unfold deliver. cbn.
    rewrite next_put. reflexivity.
  - rewrite IH, get_put, put_put. reflexivity.
  - rewrite IH. reflexivity.
  - exact (IH t).
Qed.

End WithinFacts.

(** ** [new Observable(...)]

    To a consumer that only records, it makes no difference that the
    observer hands on at once what it is sent: the state and the record
    are those that the inner subscription leaves. *)

Section CreateFacts.
Context {S T A B : Type}.
Context (get : T -> S) (put : S -> T -> T) (sent : T -> Emission B).
Context (next : A -> T -> T) (error : string -> T -> T) (complete : T -> T).
Hypothesis get_put : forall s t, get (put s t) = s.
Hypothesis put_get : forall t, put (get t) t = t.
Hypothesis put_put : forall s s' t, put s (put s' t) = put s t.
Hypothesis sent_put : forall s t, sent (put s t) = sent t.
Hypothesis next_grows :
  forall a t, values (sent t) `prefix_of` values (sent (next a t)).
Hypothesis error_grows :
  forall e t, values (sent t) `prefix_of` values (sent (error e t)).
Hypothesis complete_grows :
  forall t, values (sent t) `prefix_of` values (sent (complete t)).

Implicit Types (o : Rx.Observable T A) (t : T) (s : S).

Lemma keeps_sent_silent o t :
  Rx.keeps_sent sent o -> sent (Rx.silent o t) = sent t.
Proof.
  intros H. revert t.
  induction H as [|e| |a k _ IH|f k Hf _ IH|f _ IH|k c _ _ Hc]; intros t;
    cbn [Rx.silent]; auto.
  rewrite IH. apply Hf.
Qed.

Lemma keeps_sent_inner o : Rx.keeps_sent sent o -> Rx.keeps_sent sent (Rx.inner o).
Proof. induction 1; cbn [Rx.inner]; try constructor; auto. Qed.

Lemma keeps_sent_filter (p : A -> bool) o :
  Rx.keeps_sent sent o -> Rx.keeps_sent sent (Rx.filter p o).
Proof.
  induction 1 as [|e| |a k _ IH|f k Hf _ IH|f _ IH|k c _ IH Hc];
    cbn [Rx.filter]; try (constructor; auto).
  destruct (p a); [constructor|]; auto.
Qed.

Lemma keeps_sent_defaultIfEmpty (d : A) o :
  Rx.keeps_sent sent o -> Rx.keeps_sent sent (Rx.defaultIfEmpty d o).
Proof.
  induction 1 as [|e| |a k H IH|f k Hf _ IH|f _ IH|k c _ IH Hc];
    cbn [Rx.defaultIfEmpty]; repeat (constructor; auto).
Qed.

Lemma keeps_sent_concat o rest :
  Rx.keeps_sent sent o -> Rx.keeps_sent sent rest ->
  Rx.keeps_sent sent (Rx.concat o rest).
Proof.
  intros H Hrest.
  induction H as [|e| |a k _ IH|f k Hf _ IH|f _ IH|k c _ IH Hc];
    cbn [Rx.concat]; auto; try (constructor; auto).
  - intros t. apply keeps_sent_silent. exact Hrest.
  - constructor.
  - intros t. rewrite keeps_sent_silent by exact Hrest. apply Hc.
Qed.

Lemma keeps_sent_within (o : Rx.Observable S A) :
  Rx.keeps_sent sent (Rx.within get put o).
Proof.
  induction o as [| | |a k IH|f k IH|f IH|k IH c]; cbn [Rx.within];
    constructor; auto.
Qed.

Lemma subscribe_grows o t :
  Rx.keeps_sent sent o ->
  values (sent t) `prefix_of` values (sent (Rx.subscribe o next error complete t)).
Proof.
  intros H. revert t.
  induction H as [|e| |a k _ IH|f k Hf _ IH|f _ IH|k c _ IH Hc]; intros t;
    cbn [Rx.subscribe]; auto.
  - etrans; [apply next_grows|apply IH].
  - rewrite <- (Hf t). apply IH.
Qed.

Lemma news_refl t : Rx.news sent t t = [].
Proof. unfold Rx.news. apply drop_all. Qed.

Lemma news_trans t t' t'' :
  values (sent t) `prefix_of` values (sent t') ->
  values (sent t') `prefix_of` values (sent t'') ->
  Rx.news sent t t' ++ Rx.news sent t' t'' = Rx.news sent t t''.
Proof.
  intros [l1 E1] [l2 E2]. unfold Rx.news. rewrite E2, E1.
  rewrite (drop_app_length (values (sent t) ++ l1) l2).
  rewrite <- (app_assoc (values (sent t)) l1 l2).
  rewrite !drop_app_length. reflexivity.
Qed.

Lemma run_outcome t s :
  Rx.run (Rx.outcome sent t) s = (s, Emit [] (ending (sent t))).
Proof. unfold Rx.outcome. destruct (ending (sent t)); reflexivity. Qed.

Lemma run_relay o t s :
  Rx.keeps_sent sent o ->
  Rx.run (Rx.relay get put sent next error complete o t) s =
  (get (Rx.subscribe o next error complete (put s t)),
   Emit (Rx.news sent (put s t) (Rx.subscribe o next error complete (put s t)))
        (ending (sent (Rx.subscribe o next error complete (put s t))))).
Proof.
  intros H. revert t s.
  induction H as [|e| |a k Hk IH|f k Hf Hk IH|f _ IH|k c _ IH Hc]; intros t s;
    cbn [Rx.relay Rx.run Rx.subscribe].
  - rewrite run_nexts, run_outcome. cbn. rewrite app_nil_r. reflexivity.
  - rewrite run_nexts, run_outcome. cbn. rewrite app_nil_r. reflexivity.
  - rewrite run_outcome, get_put, news_refl, sent_put. reflexivity.
  - rewrite run_nexts, IH. cbn [fst snd values ending].
    rewrite put_get. rewrite news_trans; [reflexivity|apply next_grows|].
    apply subscribe_grows. exact Hk.
  - rewrite IH, put_get. unfold Rx.news. rewrite Hf. reflexivity.
  - rewrite IH, put_put. reflexivity.
  - apply IH.
Qed.

End CreateFacts.

(** ** [getRouteFirst$] *)

Section FirstFacts.
Context {S Routable Action : Type}.

Local Abbreviation Route := (Route Action).
Local Abbreviation Router := (Router S Routable Action).

Implicit Types (s : S) (x : Routable) (o rest : Rx.Observable S Route).

(** An inner observable that completes without an actionable route hands
    over to what follows it. *)
Lemma first_passes_over o rest d s s' routes :
  Rx.run o s = (s', Emit routes Completed) ->
  Forall (fun r => isAction r = false) routes ->
  Rx.run (Rx.defaultIfEmpty d (Rx.take 1 (Rx.filter isAction (Rx.concat o rest)))) s =
  Rx.run (Rx.defaultIfEmpty d (Rx.take 1 (Rx.filter isAction rest))) s'.
Proof.
  revert s routes.
  induction o as [| | |a k IH|f k IH|f IH|k IH c]; intros s routes Hrun Hno;
    cbn [Rx.concat Rx.filter Rx.take Rx.defaultIfEmpty Rx.run] in *;
    try discriminate.
  - injection Hrun as -> _. reflexivity.
  - destruct (Rx.run k s) as [s1 [vs e]] eqn:Hk.
    injection Hrun as -> <- ->.
    apply Forall_cons in Hno as [Ha Hvs]. rewrite Ha.
    eapply IH; eauto.
  - eapply IH; eauto.
  - eapply IH; eauto.
  - eapply IH; eauto.
Qed.


Lemma getRouteFirst_nil x :
  getRouteFirst (S := S) (Action := Action) [] x =
  Rx.of_ (RouteNo {| reason := "tryInOrder" |}).
Proof. reflexivity. Qed.

Lemma getRouteFirst_absent (routers : list (option Router)) x :
  getRouteFirst (None :: routers) x = getRouteFirst routers x.
Proof. reflexivity. Qed.

Lemma getRouteFirst_cons (R : Router) (routers : list (option Router)) x s :
  Rx.run (getRouteFirst (Some R :: routers) x) s =
  Rx.run
    (Rx.defaultIfEmpty (RouteNo {| reason := "tryInOrder" |})
       (Rx.take 1
          (Rx.filter isAction
             (Rx.concat (Rx.inner (getRoute R x))
                (Rx.concatMap (fun router : Router => getRoute router x)
                   (Rx.filterPresent (Rx.from routers))))))) s.
Proof. reflexivity. Qed.

Lemma getRouteFirst_declined (pre routers : list (option Router)) x s s' routes :
  resolves_in_order x pre s routes s' ->
  Forall (fun r => isAction r = false) routes ->
  Rx.run (getRouteFirst (pre ++ routers) x) s =
  Rx.run (getRouteFirst routers x) s'.
Proof.
  induction 1 as [s|pre s routes s' _ IH|r pre s s1 first rest s' Hr _ IH];
    intros Hno.
  - reflexivity.
  - cbn [app]. rewrite getRouteFirst_absent. auto.
  - apply Forall_app in Hno as [Hfirst Hrest].
    rewrite <- (IH Hrest).
    cbn [app]. rewrite getRouteFirst_cons.
    eapply first_passes_over; [|exact Hfirst].
    rewrite run_inner. exact Hr.
Qed.


End FirstFacts.

(** ** [getRouteBest$] *)

Section BestFacts.
Context {S Routable Action : Type} (warnNeverCalled : Action).

Local Abbreviation Route := (Route Action).
Local Abbreviation ActionRoute := (ActionRoute Action).
Local Abbreviation Router := (Router S Routable Action).
Local Abbreviation Scope := (BestScope S Action).

Implicit Types (s : S) (x : Routable) (st : Scope) (r a b : ActionRoute).

(** The routers that [getRouteBest$] still has to go through, as the
    stream its subscriber listens to (the ignored default left out). *)
Local Abbreviation remaining x routers :=
  (Rx.concatMap
     (fun router : Router => Rx.within world set_world (getRoute router x))
     (Rx.takeWhile (fun (st : Scope) (_ : Router) => ltb (score (bestRoute st)) 1)
        (Rx.filterPresent (Rx.from routers)))).

Local Abbreviation search x routers st :=
  (Rx.subscribe (remaining x routers) best_next best_error best_complete st).

Lemma silent_remaining x (routers : list (option Router)) st :
  Rx.silent (remaining x routers) st = st.
Proof.
  destruct routers as [|[R|] routers]; cbn.
  - reflexivity.
  - destruct (ltb (score (bestRoute st)) 1); cbn.
    + apply silent_takeWhile_from.
    + apply silent_from.
  - induction routers as [|[R|] routers IH]; cbn; auto.
    destruct (ltb (score (bestRoute st)) 1); cbn.
    + apply silent_takeWhile_from.
    + apply silent_from.
Qed.

Lemma keeps_sent_remaining x (routers : list (option Router)) :
  Rx.keeps_sent observer (remaining x routers).
Proof.
  induction routers as [|[R|] routers IH];
    cbn [Rx.from Rx.filterPresent Rx.takeWhile Rx.concatMap].
  - constructor.
  - constructor. intros st.
    destruct (ltb (score (bestRoute st)) 1); cbn [Rx.concatMap].
    + constructor.
      * apply keeps_sent_concat; [|exact IH].
        apply keeps_sent_inner, keeps_sent_within. reflexivity.
      * intros t. rewrite silent_takeWhile_from. reflexivity.
    + constructor; [|constructor].
      intros t. rewrite silent_from. reflexivity.
  - exact IH.
Qed.

Lemma best_next_grows (route : Route) st :
  values (observer st) `prefix_of` values (observer (best_next route st)).
Proof.
  destruct route as [r|n]; cbn; [|reflexivity].
  destruct (gtb (score r) (score (bestRoute st))); [|reflexivity].
  destruct (strictEq (score r) 1); cbn; [|reflexivity].
  destruct (observer st) as [vs []]; cbn; try reflexivity.
  apply prefix_app_r. reflexivity.
Qed.

Lemma run_getRouteBest (routers : list (option Router)) x s :
  Rx.run (getRouteBest warnNeverCalled routers x) s =
  (world (search x routers
            {| bestRoute := minRoute warnNeverCalled;
               observer := Emit [] Pending; world := s |}),
   observer (search x routers
            {| bestRoute := minRoute warnNeverCalled;
               observer := Emit [] Pending; world := s |})).
Proof.
  unfold getRouteBest, Rx.create. cbn [Rx.run].
  rewrite run_relay.
  - cbn [set_world bestRoute observer world].
    rewrite subscribe_defaultIfEmpty_ignored by reflexivity.
    rewrite subscribe_filter.
    rewrite (subscribe_ext _ _ best_next) by (intros [r|n] st; reflexivity).
    unfold Rx.news. cbn [observer values length]. rewrite drop_0.
    destruct (observer _); reflexivity.
  - reflexivity.
  - intros [b o w]; reflexivity.
  - reflexivity.
  - reflexivity.
  - apply best_next_grows.
  - intros e [b [vs []] w]; reflexivity.
  - intros [b [vs []] w]; cbn; destruct (gtb (score b) 0); cbn;
      try reflexivity; apply prefix_app_r; reflexivity.
  - apply keeps_sent_defaultIfEmpty, keeps_sent_filter, keeps_sent_remaining.
Qed.

Lemma search_nil x st : search x [] st = best_complete st.
Proof. reflexivity. Qed.

Lemma search_absent x (routers : list (option Router)) st :
  search x (None :: routers) st = search x routers st.
Proof. reflexivity. Qed.

Lemma search_cons x (R : Router) (routers : list (option Router)) st :
  search x (Some R :: routers) st =
  if ltb (score (bestRoute st)) 1
  then deliver best_next best_error (fun st' => search x routers st')
         (snd (Rx.run (getRoute R x) (world st)))
         (set_world (fst (Rx.run (getRoute R x) (world st))) st)
  else best_complete st.
Proof.
  cbn [Rx.from Rx.filterPresent Rx.takeWhile Rx.concatMap Rx.subscribe].
  destruct (ltb (score (bestRoute st)) 1); cbn [Rx.concatMap Rx.subscribe];
    [|rewrite silent_from; reflexivity].
  rewrite subscribe_concat by apply silent_remaining.
  rewrite subscribe_inner.
  apply subscribe_within.
  - reflexivity.
  - intros [b o w]; reflexivity.
  - reflexivity.
  - intros [r|n] s [b o w]; cbn; [|reflexivity].
    destruct (gtb (score r) (score b)); [|reflexivity].
    destruct (strictEq (score r) 1); reflexivity.
  - intros [r|n] [b o w]; cbn; [|reflexivity].
    destruct (gtb (score r) (score b)); [|reflexivity].
    destruct (strictEq (score r) 1); reflexivity.
Qed.

(** *** While no candidate has reached 1 *)

Lemma candidates_app (l1 l2 : list Route) :
  candidates (l1 ++ l2) = candidates l1 ++ candidates l2.
Proof.
  induction l1 as [|[r|n] l1 IH]; cbn; [reflexivity| |assumption].
  rewrite IH. reflexivity.
Qed.

Lemma champion_below_1 b (cands : list ActionRoute) :
  score b < 1 ->
  Forall (fun c => score c < 1) cands ->
  score (champion b cands) < 1.
Proof.
  revert b. induction cands as [|c cands IH]; intros b Hb Hall; [exact Hb|].
  apply Forall_cons in Hall as [Hc Hall]. cbn.
  apply IH; [|exact Hall].
  unfold keep_better. destruct (gtb (score c) (score b)); assumption.
Qed.

Lemma feed_searching (routes : list Route) st :
  observer st = Emit [] Pending ->
  Forall (fun c => score c < 1) (candidates routes) ->
  foldl (fun st' route => best_next route st') st routes =
  {| bestRoute := champion (bestRoute st) (candidates routes);
     observer := Emit [] Pending;
     world := world st |}.
Proof.
  revert st. induction routes as [|[r|n] routes IH]; intros [b o w] Ho Hall;
    cbn in *.
  - subst o. reflexivity.
  - apply Forall_cons in Hall as [Hr Hall].
    unfold keep_better. destruct (gtb (score r) (score b)) eqn:E.
    + assert (strictEq (score r) 1 = false) as ->.
      { apply strictEq_false. intros H. rewrite H in Hr. lra. }
      rewrite IH; auto.
    + rewrite IH; auto.
  - rewrite IH; auto.
Qed.

Lemma search_searching x (pre more : list (option Router)) s0 s1 routes :
  resolves_in_order x pre s0 routes s1 ->
  forall st,
    world st = s0 ->
    observer st = Emit [] Pending ->
    score (bestRoute st) < 1 ->
    Forall (fun c => score c < 1) (candidates routes) ->
    search x (pre ++ more) st =
    search x more
      {| bestRoute := champion (bestRoute st) (candidates routes);
         observer := Emit [] Pending;
         world := s1 |}.
Proof.
  induction 1 as [s|pre s routes s' _ IH|R pre s s1 first rest s' HR _ IH];
    intros st Hw Ho Hb Hall.
  - destruct st as [b o w]; cbn in *. subst. reflexivity.
  - cbn [app]. rewrite search_absent. auto.
  - cbn [app]. rewrite search_cons.
    apply ltb_true in Hb as Hlt. rewrite Hlt.
    rewrite Hw, HR. unfold deliver. cbn [fst snd values ending].
    rewrite candidates_app in Hall. apply Forall_app in Hall as [Hfirst Hrest].
    rewrite feed_searching; [|exact Ho|exact Hfirst].
    rewrite IH; cbn [bestRoute observer world]; auto.
    + rewrite candidates_app. unfold champion. rewrite foldl_app. reflexivity.
    + apply champion_below_1; assumption.
Qed.

(** The champion is the start, unbeaten, or the first candidate of the
    highest score. *)
Lemma champion_spec b (cands : list ActionRoute) :
  (champion b cands = b /\
   forall j c, cands !! j = Some c -> score c <= score b)
  \/
  (exists i,
      cands !! i = Some (champion b cands) /\
      score b < score (champion b cands) /\
      (forall j c, cands !! j = Some c -> score c <= score (champion b cands)) /\
      (forall j c, (j < i)%nat -> cands !! j = Some c ->
                   score c < score (champion b cands))).
Proof.
  revert b. induction cands as [|c cands IH]; intros b.
  - left. split; [reflexivity|]. intros j c H. destruct j; discriminate.
  - cbn [champion foldl]. fold (champion (keep_better b c) cands).
    unfold keep_better. destruct (gtb (score c) (score b)) eqn:E.
    + apply gtb_true in E. right.
      destruct (IH c) as [[Heq Hle]|(i & Hi & Hlt & Hle & Hbefore)].
      * exists 0%nat. rewrite Heq. repeat split.
        -- exact E.
        -- intros [|j] c' H; cbn in H.
           ++ injection H as <-. lra.
           ++ eauto.
        -- intros j c' Hj. lia.
      * exists (Datatypes.S i). repeat split.
        -- exact Hi.
        -- lra.
        -- intros [|j] c' H; cbn in H.
           ++ injection H as <-. lra.
           ++ eauto.
        -- intros [|j] c' Hj H; cbn in H.
           ++ injection H as <-. exact Hlt.
           ++ apply (Hbefore j); [lia|exact H].
    + apply gtb_false in E.
      destruct (IH b) as [[Heq Hle]|(i & Hi & Hlt & Hle & Hbefore)].
      * left. split; [exact Heq|].
        intros [|j] c' H; cbn in H.
        -- injection H as <-. exact E.
        -- eauto.
      * right. exists (Datatypes.S i). repeat split.
        -- exact Hi.
        -- exact Hlt.
        -- intros [|j] c' H; cbn in H.
           ++ injection H as <-. lra.
           ++ eauto.
        -- intros [|j] c' Hj H; cbn in H.
           ++ injection H as <-. lra.
           ++ apply (Hbefore j); [lia|exact H].
Qed.

(** *** Once a candidate has reached 1 *)




(** *** The resolution as a whole *)

Lemma score_minRoute : score (minRoute warnNeverCalled) = 0.
Proof. reflexivity. Qed.

(** When every router completes and no candidate scores above 0, the
    observer is completed without having been sent anything. *)
Lemma getRouteBest_no_winner x (routers : list (option Router)) s0 s1 routes :
  resolves_in_order x routers s0 routes s1 ->
  Forall (fun c => score c <= 0) (candidates routes) ->
  Rx.run (getRouteBest warnNeverCalled routers x) s0 = (s1, Emit [] Completed).
Proof.
  intros Hall Hzero.
  rewrite run_getRouteBest. rewrite <- (app_nil_r routers).
  rewrite (search_searching x routers [] s0 s1 routes Hall);
    [|reflexivity|reflexivity|cbn; lra|].
  2:{ eapply Forall_impl; [exact Hzero|]. cbn. intros c Hc. lra. }
  rewrite search_nil. cbn [bestRoute observer world].
  destruct (champion_spec (minRoute warnNeverCalled) (candidates routes))
    as [[Heq _]|(i & Hi & Hlt & _)].
  - rewrite Heq. reflexivity.
  - rewrite score_minRoute in Hlt.
    rewrite Forall_lookup in Hzero. apply Hzero in Hi. lra.
Qed.

Lemma resolves_getRouteNo x (reasons : list (option string)) s :
  resolves_in_order x
    (map (fun reason =>
            Some {| getRoute :=
                      getRouteNo (S := S) (Routable := Routable)
                        (Action := Action) reason |})
         reasons)
    s (map (fun reason => RouteNo (noRoute reason)) reasons) s.
Proof.
  induction reasons as [|reason reasons IH]; cbn [map].
  - constructor.
  - apply (resolves_cons x _ _ s s [RouteNo (noRoute reason)]); [reflexivity|exact IH].
Qed.

Lemma resolves_getRouteDo x (handlers : list (Routable -> Action)) (sc : option number) s :
  resolves_in_order x
    (map (fun h => Some {| getRoute := getRouteDo (S := S) h sc |}) handlers)
    s (map (fun h => RouteAction (actionRoute (h x) sc)) handlers) s.
Proof.
  induction handlers as [|h handlers IH]; cbn [map].
  - constructor.
  - apply (resolves_cons x _ _ s s [RouteAction (actionRoute (h x) sc)]);
      [reflexivity|exact IH].
Qed.

(** C2 (what the code does).  With no router at all, with routers that
    all answer no-route, and with routers whose routes all have score 0,
    a resolution of [getRouteBest$] completes without delivering any
    route: the no-route of reason "tryInScoreOrder" that [defaultIfEmpty]
    supplies is dropped by the [next] callback and never reaches the
    observer. *)
Theorem getRouteBest_no_winner_delivers_nothing x s :
  Rx.run (getRouteBest (Routable := Routable) warnNeverCalled [] x) s
    = (s, Emit [] Completed)
  /\
  (forall reasons : list (option string),
      Rx.run (getRouteBest warnNeverCalled
                (map (fun reason => Some {| getRoute := getRouteNo reason |}) reasons) x) s
      = (s, Emit [] Completed))
  /\
  (forall handlers : list (Routable -> Action),
      Rx.run (getRouteBest warnNeverCalled
                (map (fun h => Some {| getRoute := getRouteDo h (Some 0) |}) handlers) x) s
      = (s, Emit [] Completed)).
Proof.
  split; [|split].
  - reflexivity.
  - intros reasons.
    eapply getRouteBest_no_winner; [apply resolves_getRouteNo|].
    induction reasons; cbn; auto.
  - intros handlers.
    eapply getRouteBest_no_winner; [apply resolves_getRouteDo|].
    induction handlers; cbn; [constructor|].
    constructor; [cbn; lra|assumption].
Qed.


(** C4. A candidate replaces the best route only if its score is
    strictly greater.  Hence, when every router completes, all candidates
    score below 1 and one of them scores above 0, the resolution delivers
    the first candidate of the highest score: no candidate scores higher,
    and every candidate before it scores strictly lower. *)
Theorem getRouteBest_first_of_highest_score x :
  (forall st r,
      score r <= score (bestRoute st) ->
      best_next (RouteAction r) st = st)
  /\
  (forall (routers : list (option Router)) s0 s1 routes,
      resolves_in_order x routers s0 routes s1 ->
      Forall (fun c => score c < 1) (candidates routes) ->
      (exists j c, candidates routes !! j = Some c /\ 0 < score c) ->
      exists i winner,
        Rx.run (getRouteBest warnNeverCalled routers x) s0 =
          (s1, Emit [RouteAction winner] Completed) /\
        candidates routes !! i = Some winner /\
        (forall j c, candidates routes !! j = Some c -> score c <= score winner) /\
        (forall j c, (j < i)%nat -> candidates routes !! j = Some c ->
                     score c < score winner)).
Proof.
  split.
  - intros st r Hle. cbn.
    apply gtb_false in Hle. rewrite Hle. reflexivity.
  - intros routers s0 s1 routes Hall Hbelow (j & c & Hj & Hc).
    destruct (champion_spec (minRoute warnNeverCalled) (candidates routes))
      as [[_ Hle]|(i & Hi & Hlt & Hle & Hfirst)].
    + apply Hle in Hj. rewrite score_minRoute in Hj. lra.
    + exists i, (champion (minRoute warnNeverCalled) (candidates routes)).
      split; [|auto].
      rewrite run_getRouteBest. rewrite <- (app_nil_r routers).
      rewrite (search_searching x routers [] s0 s1 routes Hall);
        [|reflexivity|reflexivity|cbn; lra|exact Hbelow].
      rewrite search_nil. unfold best_complete. cbn [bestRoute observer world].
      rewrite score_minRoute in Hlt.
      apply gtb_true in Hlt. rewrite Hlt. reflexivity.
Qed.

End BestFacts.

(** ** Normalisation of matcher and predicate responses *)

Section NormalizeFacts.

Lemma normalizeMatchResult_object props :
  normalizeMatchResult (JObject props) =
  if truthy (prop "reason" props) then
    match prop "reason" props with
    | JString r => Ok (NoMatch r)
    | _ => Throw "The reason for NoMatch must be a string"
    end
  else if defined (prop "value" props) then
    match prop "score" props with
    | JUndefined => Ok (Match (prop "value" props) 1)
    | JNumber n => Ok (Match (prop "value" props) (if truthy (JNumber n) then n else 1))
    | _ => Throw "The score for Match must be a number"
    end
  else Ok (Match (JObject props) 1).
Proof. reflexivity. Qed.

(** An object without a truthy [reason], with a [value], and with a
    non-zero number as [score] is a match of that value and score. *)
Lemma normalizeMatchResult_scored props v n :
  truthy (prop "reason" props) = false ->
  prop "value" props = v ->
  defined v = true ->
  prop "score" props = JNumber n ->
  ~ n == 0 ->
  normalizeMatchResult (JObject props) = Ok (Match v n).
Proof.
  intros Hr Hv Hd Hs Hn. rewrite normalizeMatchResult_object.
  rewrite Hr, Hv, Hd, Hs. cbn.
  apply strictEq_false in Hn. rewrite Hn. reflexivity.
Qed.

(** C5 (as the code has it).  The response [true] normalises to a match
    whose value is [true] itself, with score 1; [null], [undefined] and
    [false] normalise to the failure of the default reason "none"; and
    [{ value: "v", score: 0.3 }] to the match of "v" with score 0.3. *)
Theorem normalizeMatchResult_canonical :
  normalizeMatchResult (JBool true) = Ok (Match (JBool true) 1) /\
  normalizeMatchResult JNull = Ok (NoMatch "none") /\
  normalizeMatchResult JUndefined = Ok (NoMatch "none") /\
  normalizeMatchResult (JBool false) = Ok (NoMatch "none") /\
  normalizeMatchResult
    (JObject [("value", JString "v"); ("score", JNumber (3 # 10))])
  = Ok (Match (JString "v") (3 # 10)).
Proof. repeat split; reflexivity. Qed.

(** C5 as stated fails: on the routable "play random", the matcher
    response [true] does not normalise to a match of the routable. *)
Lemma normalizeMatchResult_true_is_not_the_input :
  normalizeMatchResult (JBool true) = Ok (Match (JBool true) 1) /\
  normalizeMatchResult (JBool true) <> Ok (Match (JString "play random") 1).
Proof. split; [reflexivity|discriminate]. Qed.

(** The earlier helper is the one that answers [true] with the input. *)
Lemma matchize_true_is_the_input {S} (message : JsValue) (s : S) :
  Rx.run (Legacy.matchize (fun _ => Plain (JBool true)) message) s =
  (s, Emit [message] Completed).
Proof. reflexivity. Qed.

(** C10. An object with a [value], no truthy [reason] and the score 0
    normalises to a match of score 1; and no response at all normalises
    to a match of score 0. *)
Theorem normalizeMatchResult_never_scores_0 :
  (forall props v n,
      truthy (prop "reason" props) = false ->
      prop "value" props = v ->
      defined v = true ->
      prop "score" props = JNumber n ->
      n == 0 ->
      normalizeMatchResult (JObject props) = Ok (Match v 1))
  /\
  (forall response v sc,
      normalizeMatchResult response = Ok (Match v sc) ->
      ~ sc == 0).
Proof.
  split.
  - intros props v n Hr Hv Hd Hs Hn. rewrite normalizeMatchResult_object.
    rewrite Hr, Hv, Hd, Hs. cbn.
    apply strictEq_true in Hn. rewrite Hn. reflexivity.
  - intros response v sc H.
    assert (Hone : ~ 1 == 0) by (intros E; discriminate E).
    destruct response as [| |[|]|n|str|props]; cbn in H;
      try discriminate; try (injection H as _ <-; exact Hone).
    destruct (truthy (prop "reason" props)).
    { destruct (prop "reason" props); discriminate. }
    destruct (defined (prop "value" props)).
    2:{ injection H as _ <-; exact Hone. }
    destruct (prop "score" props) as [| |b|n|str|ps]; try discriminate.
    + injection H as _ <-; exact Hone.
    + destruct (strictEq n 0) eqn:E; cbn in H; injection H as _ <-.
      * exact Hone.
      * apply strictEq_false. exact E.
Qed.

(** C9 as stated fails: [{ reason: 0 }] has a [reason] that is present
    and is not a string, yet it normalises, without any error, to a match
    of the object itself; and [{ reason: "no", value: 1, score: "high" }]
    has a [value] and a non-numeric [score], yet it normalises to a
    failure. *)
Lemma normalizeMatchResult_falsy_reason_accepted :
  normalizeMatchResult (JObject [("reason", JNumber 0)])
    = Ok (Match (JObject [("reason", JNumber 0)]) 1)
  /\
  normalizeMatchResult
    (JObject [("reason", JString "no"); ("value", JNumber 1);
              ("score", JString "high")])
    = Ok (NoMatch "no").
Proof. split; reflexivity. Qed.

(** C9 (as the code has it).  [normalizeMatchResult] throws in two cases
    only: "reason must be a string" exactly for an object whose [reason]
    is truthy and not a string; "score must be a number" exactly for an
    object whose [reason] is not truthy, whose [value] is not [undefined]
    and whose [score] is neither [undefined] nor a number.  The predicate
    callback throws for every response except a boolean, an object with
    a truthy [reason], and an object whose [value] is a boolean. *)
Theorem normalization_throws_exactly response :
  (normalizeMatchResult response = Throw "The reason for NoMatch must be a string"
   <-> exists props,
       response = JObject props /\
       truthy (prop "reason" props) = true /\
       typeof (prop "reason" props) <> "string")
  /\
  (normalizeMatchResult response = Throw "The score for Match must be a number"
   <-> exists props,
       response = JObject props /\
       truthy (prop "reason" props) = false /\
       defined (prop "value" props) = true /\
       defined (prop "score" props) = true /\
       typeof (prop "score" props) <> "number")
  /\
  (forall msg,
      normalizeMatchResult response = Throw msg ->
      msg = "The reason for NoMatch must be a string" \/
      msg = "The score for Match must be a number")
  /\
  ((exists msg, predicateResponse response = Throw msg)
   <-> ~ ((exists b, response = JBool b) \/
          (exists props,
              response = JObject props /\
              (truthy (prop "reason" props) = true \/
               exists b, prop "value" props = JBool b)))).
Proof.
  destruct response as [| |[|]|n|str|props].
  1-6: repeat split;
    try (intros H; cbn in H; discriminate H);
    try (intros (props & H & _); discriminate H);
    try (intros msg H; cbn in H; discriminate H);
    try (intros _ [[b H]|(props & H & _)]; discriminate H);
    try (intros _; eexists; reflexivity);
    try (intros [msg H]; cbn in H; discriminate H);
    try (intros H; exfalso; apply H; left; eexists; reflexivity).
  rewrite normalizeMatchResult_object. cbn [predicateResponse].
  destruct (truthy (prop "reason" props)) eqn:Hr.
  - repeat split.
    + intros H. exists props. repeat split; auto.
      destruct (prop "reason" props); cbn; congruence.
    + intros (props' & [= <-] & _ & Hty).
      destruct (prop "reason" props); cbn in *; congruence.
    + destruct (prop "reason" props); discriminate.
    + intros (props' & [= <-] & Hf & _). congruence.
    + intros msg H. left.
      destruct (prop "reason" props); congruence.
    + intros [msg H]. discriminate H.
    + intros H. exfalso. apply H. right. exists props. auto.
  - destruct (defined (prop "value" props)) eqn:Hd.
    + repeat split.
      * destruct (prop "score" props); discriminate.
      * intros (props' & [= <-] & Ht & _). congruence.
      * intros H. exists props. repeat split; auto;
          destruct (prop "score" props); cbn; congruence.
      * intros (props' & [= <-] & _ & _ & Hds & Hty).
        destruct (prop "score" props); cbn in *; congruence.
      * intros msg H. right.
        destruct (prop "score" props); congruence.
      * intros [msg H] [[b Hb]|(props' & [= <-] & [Ht|[b Hb]])];
          try congruence.
        rewrite Hb in H. destruct b; discriminate H.
      * intros H.
        destruct (prop "value" props) as [| |[|]|n|str|ps] eqn:Hv;
          try (eexists; reflexivity);
          exfalso; apply H; right; exists props; split; eauto.
    + repeat split.
      * discriminate.
      * intros (props' & [= <-] & Ht & _). congruence.
      * discriminate.
      * intros (props' & [= <-] & _ & Hd' & _). congruence.
      * discriminate.
      * intros _ [[b Hb]|(props' & [= <-] & [Ht|[b Hb]])];
          try congruence.
        rewrite Hb in Hd. discriminate Hd.
      * intros _. eexists; reflexivity.
Qed.

End NormalizeFacts.

(** ** Conditional dispatch *)

Section DispatchFacts.
Context {S Routable Action : Type}.

Local Abbreviation Route := (Route Action).
Local Abbreviation ActionRoute := (ActionRoute Action).
Local Abbreviation Router := (Router S Routable Action).
Local Abbreviation Matcher := (Routable -> Observableable S JsValue).

Implicit Types (s : S) (x : Routable) (r : ActionRoute).

Lemma run_merge_complete {A} (o : Rx.Observable S A) s :
  Rx.run (Rx.merge o Rx.Complete) s = Rx.run o s.
Proof.
  revert s. induction o as [| | |a k IH|f k IH|f IH|k IH c]; intros s; cbn; auto.
  rewrite IH. reflexivity.
Qed.

Lemma run_flatMap_of {A B} (f : A -> Rx.Observable S B) (a : A) s :
  Rx.run (Rx.flatMap f (Rx.Next a Rx.Complete)) s = Rx.run (f a) s.
Proof.
  cbn [Rx.flatMap Rx.run]. rewrite run_merge_complete. apply run_inner.
Qed.

Lemma run_map_ok {A B} (g : A -> B) (o : Rx.Observable S A) s :
  Rx.run (Rx.map (fun a => Ok (g a)) o) s =
  (fst (Rx.run o s),
   Emit (List.map g (values (snd (Rx.run o s)))) (ending (snd (Rx.run o s)))).
Proof.
  revert s. induction o as [| | |a k IH|f k IH|f IH|k IH c]; intros s; cbn; auto.
  rewrite IH. destruct (Rx.run k s) as [s' [vs e]]. reflexivity.
Qed.

Lemma routeWithCombinedScore_action r sc :
  action (routeWithCombinedScore r sc) = action r.
Proof.
  unfold routeWithCombinedScore.
  destruct (strictEq (score r) (combineScore sc (score r))); reflexivity.
Qed.

Lemma routeWithCombinedScore_score r sc :
  score (routeWithCombinedScore r sc) == sc * score r.
Proof.
  unfold routeWithCombinedScore.
  destruct (strictEq (score r) (combineScore sc (score r))) eqn:E; cbn.
  - apply strictEq_true in E. exact E.
  - reflexivity.
Qed.

Lemma routeWithCombinedScore_1 r sc :
  sc == 1 -> routeWithCombinedScore r sc = r.
Proof.
  intros H. unfold routeWithCombinedScore.
  assert (strictEq (score r) (combineScore sc (score r)) = true) as ->;
    [|reflexivity].
  apply strictEq_true. unfold combineScore. rewrite H. ring.
Qed.

Lemma getRouteIfMatches_match (matcher : Matcher)
    (getThenRouter : Routable -> JsValue -> Router) getElseRouter
    x s s' response v sc routes e :
  matcher x = Plain response ->
  normalizeMatchResult response = Ok (Match v sc) ->
  Rx.run (getRoute (getThenRouter x v) x) s = (s', Emit routes e) ->
  Rx.run (getRouteIfMatches matcher getThenRouter getElseRouter x) s =
  (s', Emit (List.map (rescored sc) routes) e).
Proof.
  intros Hm Hn Hthen. unfold getRouteIfMatches.
  rewrite Hm. cbn [toObservable Rx.of_ Rx.map]. rewrite Hn.
  cbn [Rx.map Rx.flatMap].
  cbn [Rx.run]. rewrite run_merge_complete, run_inner.
  rewrite (run_map_ok (rescored (Action := Action) sc)). rewrite Hthen. reflexivity.
Qed.

Lemma getRouteIfTrue_response (predicate : Matcher)
    (getThenRouter : Routable -> JsValue -> Router) getElseRouter
    x s s' response response' v sc routes e :
  predicate x = Plain response ->
  predicateResponse response = Ok response' ->
  normalizeMatchResult response' = Ok (Match v sc) ->
  Rx.run (getRoute (getThenRouter x v) x) s = (s', Emit routes e) ->
  Rx.run (getRouteIfTrue predicate getThenRouter getElseRouter x) s =
  (s', Emit (List.map (rescored sc) routes) e).
Proof.
  intros Hp Hr Hn Hthen. unfold getRouteIfTrue, getRouteIfMatches, predicateToMatcher.
  rewrite Hp. cbn [toObservable Rx.of_ Rx.map]. rewrite Hr.
  cbn [Rx.map]. rewrite Hn. cbn [Rx.map Rx.flatMap].
  cbn [Rx.run]. rewrite run_merge_complete, run_inner.
  rewrite (run_map_ok (rescored (Action := Action) sc)). rewrite Hthen. reflexivity.
Qed.

(** C6. [combineScore] multiplies; and two nested [getRouteIfMatches$]
    whose matchers match with the scores [s1] (outer) and [s2] (inner),
    around a handler, resolve to the actionable route of that handler
    with the score [s1 * s2]: 0.4 for 0.5 and 0.8. *)
Theorem scores_multiply_through_matchers :
  (forall outer inner, combineScore outer inner = outer * inner)
  /\
  (forall (m1 m2 : Matcher) (handler : Routable -> Action) x s
          (response1 response2 v1 v2 : JsValue) (sc1 sc2 : number),
      m1 x = Plain response1 ->
      normalizeMatchResult response1 = Ok (Match v1 sc1) ->
      m2 x = Plain response2 ->
      normalizeMatchResult response2 = Ok (Match v2 sc2) ->
      exists route,
        Rx.run
          (getRouteIfMatches m1
             (fun _ _ =>
                {| getRoute :=
                     getRouteIfMatches m2
                       (fun _ _ => {| getRoute := getRouteDo handler None |})
                       None |})
             None x) s
        = (s, Emit [RouteAction route] Completed) /\
        action route = handler x /\
        score route == sc1 * sc2 /\
        (sc1 == 1 # 2 -> sc2 == 4 # 5 -> score route == 2 # 5)).
Proof.
  split; [reflexivity|].
  intros m1 m2 handler x s response1 response2 v1 v2 sc1 sc2 Hm1 Hn1 Hm2 Hn2.
  exists (routeWithCombinedScore
            (routeWithCombinedScore (actionRoute (handler x) None) sc2) sc1).
  split.
  - pose proof (getRouteIfMatches_match m2
                  (fun _ _ => {| getRoute := getRouteDo handler None |}) None
                  x s s response2 v2 sc2
                  [RouteAction (actionRoute (handler x) None)] Completed
                  Hm2 Hn2 eq_refl) as Hinner.
    exact (getRouteIfMatches_match m1
             (fun _ _ =>
                {| getRoute :=
                     getRouteIfMatches m2
                       (fun _ _ => {| getRoute := getRouteDo handler None |})
                       None |})
             None x s s response1 v1 sc1 _ Completed Hm1 Hn1 Hinner).
  - assert (Hscore :
      score (routeWithCombinedScore
               (routeWithCombinedScore (actionRoute (handler x) None) sc2) sc1)
      == sc1 * sc2).
    { rewrite !routeWithCombinedScore_score. cbn. ring. }
    repeat split.
    + rewrite !routeWithCombinedScore_action. reflexivity.
    + exact Hscore.
    + intros H1 H2. cbn [List.map rescored] in *.
      rewrite Hscore, H1, H2. reflexivity.
Qed.

Lemma getRouteIfTrue_no_match (predicate : Matcher)
    (getThenRouter : Routable -> JsValue -> Router) getElseRouter
    x s (response response' : JsValue) (why : string) :
  predicate x = Plain response ->
  predicateResponse response = Ok response' ->
  normalizeMatchResult response' = Ok (NoMatch why) ->
  Rx.run (getRouteIfTrue predicate getThenRouter getElseRouter x) s =
  Rx.run
    (getRoute
       (default (fun _ reason => {| getRoute := getRouteNo (Some reason) |})
                getElseRouter x why) x) s.
Proof.
  intros Hp Hr Hn. unfold getRouteIfTrue, getRouteIfMatches, predicateToMatcher.
  rewrite Hp. cbn [toObservable Rx.of_ Rx.map]. rewrite Hr.
  cbn [Rx.map]. rewrite Hn. rewrite run_flatMap_of. reflexivity.
Qed.

(** C7 (as the code has it).  Let the then-router deliver the single
    actionable route [r].  If the predicate answers [true], the
    resolution delivers [r] itself.  If it answers a match of [true]
    (an object without truthy [reason] whose [value] is [true]) that
    normalises with the score [sc], the resolution delivers [r] with its
    score multiplied by [sc]; this is [r] itself when the match carries
    no [score].  If its answer normalises to a failure ([false], a match
    of [false], an object with a reason), the resolution is that of the
    else-router, as it is. *)
Theorem getRouteIfTrue_multiplies_match_score (predicate : Matcher)
    (getThenRouter : Routable -> JsValue -> Router) getElseRouter
    x s s' (response : JsValue) r :
  predicate x = Plain response ->
  Rx.run (getRoute (getThenRouter x (JBool true)) x) s
    = (s', Emit [RouteAction r] Completed) ->
  (response = JBool true ->
   Rx.run (getRouteIfTrue predicate getThenRouter getElseRouter x) s
     = (s', Emit [RouteAction r] Completed))
  /\
  (forall props v (sc : number),
      response = JObject props ->
      truthy (prop "reason" props) = false ->
      prop "value" props = JBool true ->
      normalizeMatchResult response = Ok (Match v sc) ->
      (exists r',
          Rx.run (getRouteIfTrue predicate getThenRouter getElseRouter x) s
            = (s', Emit [RouteAction r'] Completed) /\
          action r' = action r /\
          score r' == sc * score r) /\
      (prop "score" props = JUndefined ->
       Rx.run (getRouteIfTrue predicate getThenRouter getElseRouter x) s
         = (s', Emit [RouteAction r] Completed)))
  /\
  (forall (response' : JsValue) (why : string),
      predicateResponse response = Ok response' ->
      normalizeMatchResult response' = Ok (NoMatch why) ->
      Rx.run (getRouteIfTrue predicate getThenRouter getElseRouter x) s =
      Rx.run
        (getRoute
           (default (fun _ reason => {| getRoute := getRouteNo (Some reason) |})
                    getElseRouter x why) x) s).
Proof.
  intros Hp Hthen. split; [|split].
  3:{ intros response' why Hr Hn.
      exact (getRouteIfTrue_no_match predicate getThenRouter getElseRouter
               x s response response' why Hp Hr Hn). }
  - intros ->.
    rewrite (getRouteIfTrue_response predicate getThenRouter getElseRouter
               x s s' (JBool true) (JBool true) (JBool true) 1
               [RouteAction r] Completed Hp eq_refl eq_refl Hthen).
    cbn [List.map rescored].
    rewrite routeWithCombinedScore_1; reflexivity.
  - intros props v sc -> Hr Hv Hn.
    assert (Hpr : predicateResponse (JObject props) = Ok (JObject props)).
    { cbn. rewrite Hr, Hv. reflexivity. }
    assert (v = JBool true) as ->.
    { rewrite normalizeMatchResult_object, Hr, Hv in Hn. cbn in Hn.
      destruct (prop "score" props); try discriminate;
        injection Hn as <- _; reflexivity. }
    pose proof (getRouteIfTrue_response predicate getThenRouter getElseRouter
                  x s s' (JObject props) (JObject props) (JBool true) sc
                  [RouteAction r] Completed Hp Hpr Hn Hthen) as Hrun.
    cbn [List.map rescored] in Hrun.
    split.
    + exists (routeWithCombinedScore r sc). split; [exact Hrun|].
      split; [apply routeWithCombinedScore_action|apply routeWithCombinedScore_score].
    + intros Hs. rewrite Hrun.
      rewrite normalizeMatchResult_object, Hr, Hv, Hs in Hn. cbn in Hn.
      injection Hn as <-.
      rewrite routeWithCombinedScore_1; reflexivity.
Qed.

End DispatchFacts.

(** C7 as stated fails: the predicate response
    [{ value: true, score: 0.5 }] passes the predicate contract, and the
    then-router's route of score 1 comes back with score 0.5. *)
Lemma getRouteIfTrue_scored_match_changes_score :
  Rx.run
    (getRouteIfTrue (S := unit) (Routable := unit) (Action := string)
       (fun _ => Plain (JObject [("value", JBool true); ("score", JNumber (1 # 2))]))
       (fun _ _ => {| getRoute := getRouteDo (fun _ => "greet") None |})
       None tt) tt
  = (tt, Emit [RouteAction {| action := "greet"; score := 1 # 2 |}] Completed)
  /\ ~ (1 # 2 == 1).
Proof. split; [reflexivity|]. intros H. discriminate H. Qed.

(** ** Routes as objects *)

Section StoreFacts.
Context {Action : Type}.

Lemma lookup_allocate (h : Store Action) (o : ActionRoute Action) :
  (allocate h o).1 !! (allocate h o).2 = Some o /\
  h !! (allocate h o).2 = None /\
  (forall l o', h !! l = Some o' -> (allocate h o).1 !! l = Some o').
Proof.
  unfold allocate. cbn [fst snd]. repeat split.
  - rewrite lookup_app_r by lia. rewrite Nat.sub_diag. reflexivity.
  - apply lookup_ge_None. lia.
  - intros l o' H. rewrite lookup_app_l; [exact H|].
    eapply lookup_lt_Some; eauto.
Qed.

(** C8. [routeWithCombinedScore] on a route of the store: if the
    recombined score equals the route's score (as it does for the new
    score 1), the very reference it was given comes back and the store is
    as before; otherwise a reference not in use before comes back, to a
    route with the recombined score and the action of the original.  In
    both cases every object of the store, the original included, is as
    it was. *)
Theorem routeWithCombinedScore_ref_spec (h : Store Action) (route : Ref)
    (r : ActionRoute Action) (newScore : number) :
  h !! route = Some r ->
  exists h' route',
    routeWithCombinedScore_ref h route newScore = Some (h', route') /\
    (forall l o, h !! l = Some o -> h' !! l = Some o) /\
    h' !! route' = Some (routeWithCombinedScore r newScore) /\
    (combineScore newScore (score r) == score r ->
     route' = route /\ h' = h) /\
    (~ combineScore newScore (score r) == score r ->
     h !! route' = None /\
     h' !! route' =
       Some {| action := action r;
               score := combineScore newScore (score r) |}) /\
    (newScore == 1 -> route' = route /\ h' = h).
Proof.
  intros Hr. unfold routeWithCombinedScore_ref, routeWithCombinedScore.
  rewrite Hr.
  destruct (strictEq (score r) (combineScore newScore (score r))) eqn:E.
  - apply strictEq_true in E.
    exists h, route.
    split; [reflexivity|]. split; [auto|]. split; [exact Hr|].
    split; [auto|]. split; [|auto].
    intros Hne. exfalso. apply Hne. symmetry. exact E.
  - apply strictEq_false in E.
    remember {| action := action r; score := combineScore newScore (score r) |}
      as o eqn:Eo.
    destruct (lookup_allocate h o) as (Hnew & Hfresh & Hold).
    exists (allocate h o).1, (allocate h o).2.
    split; [destruct (allocate h o); reflexivity|].
    split; [exact Hold|]. split; [exact Hnew|].
    split; [|split; [auto|]].
    + intros Heq. exfalso. apply E. symmetry. exact Heq.
    + intros H1. exfalso. apply E. unfold combineScore. rewrite H1. ring.
Qed.

End StoreFacts.

(** ** The theorems at work on concrete routers *)

Section Instances.
Import Examples.



(** [best] on the scores 0.85, 0.50, 0.85: all three routers are asked,
    and the theorem leaves no choice but the first route. *)
Lemma getRouteBest_first_of_highest_score_witness :
  Rx.run
    (getRouteBest "warn"
       [Some (spy 0 (act "first" (17 # 20))); Some (spy 1 (act "second" (1 # 2)));
        Some (spy 2 (act "third" (17 # 20)))]
       "play random") []
  = ([0; 1; 2]%nat, Emit [act "first" (17 # 20)] Completed).
Proof.
  destruct (proj2 (getRouteBest_first_of_highest_score "warn" "play random")
              [Some (spy 0 (act "first" (17 # 20)));
               Some (spy 1 (act "second" (1 # 2)));
               Some (spy 2 (act "third" (17 # 20)))]
              [] [0; 1; 2]%nat
              ([act "first" (17 # 20)] ++ [act "second" (1 # 2)]
                 ++ [act "third" (17 # 20)] ++ []))
    as (i & winner & Hrun & Hi & Hle & Hlt).
  - apply (resolves_cons _ _ _ [] [0%nat] [act "first" (17 # 20)] _ [0; 1; 2]%nat);
      [reflexivity|].
    apply (resolves_cons _ _ _ [0%nat] [0; 1]%nat [act "second" (1 # 2)] _
             [0; 1; 2]%nat); [reflexivity|].
    apply (resolves_cons _ _ _ [0; 1]%nat [0; 1; 2]%nat [act "third" (17 # 20)] _
             [0; 1; 2]%nat); [reflexivity|].
    apply resolves_nil.
  - repeat constructor.
  - exists 0%nat, {| action := "first"; score := 17 # 20 |}.
    split; reflexivity.
  - destruct i as [|[|[|i]]]; cbn in Hi; try discriminate Hi.
    + injection Hi as <-. exact Hrun.
    + exfalso. injection Hi as <-.
      apply (Hle 0%nat {| action := "first"; score := 17 # 20 |} eq_refl).
      reflexivity.
    + exfalso. injection Hi as <-.
      assert (H : (0 < 2)%nat) by lia.
      discriminate (Hlt 0%nat {| action := "first"; score := 17 # 20 |} H eq_refl).
Defined.

(** Two matchers of scores 0.5 and 0.8 around a handler. *)
Lemma scores_multiply_through_matchers_witness :
  exists route,
    Rx.run
      (getRouteIfMatches (scoredMatcher "artist" (1 # 2))
         (fun _ _ =>
            {| getRoute :=
                 getRouteIfMatches (scoredMatcher "song" (4 # 5))
                   (fun _ _ => {| getRoute := getRouteDo (fun x => x) None |})
                   None |})
         None "play random") tt
    = (tt, Emit [RouteAction route] Completed) /\
    action route = "play random" /\
    score route == 2 # 5.
Proof.
  destruct (proj2 (scores_multiply_through_matchers (S := unit))
              (scoredMatcher "artist" (1 # 2)) (scoredMatcher "song" (4 # 5))
              (fun x => x) "play random" tt
              _ _ (JString "artist") (JString "song") (1 # 2) (4 # 5)
              eq_refl eq_refl eq_refl eq_refl)
    as (route & Hrun & Haction & _ & Hscore).
  exists route. split; [exact Hrun|]. split; [exact Haction|].
  apply Hscore; reflexivity.
Defined.

(** A predicate answering [true], and one answering
    [{ value: true, score: 0.5 }], before a handler of score 0.7. *)
Lemma getRouteIfTrue_multiplies_match_score_witness :
  Rx.run
    (getRouteIfTrue (S := unit) (fun _ : string => Plain (JBool true))
       (fun _ _ => {| getRoute := getRouteDo (fun x => x) (Some (7 # 10)) |})
       None "play random") tt
  = (tt, Emit [act "play random" (7 # 10)] Completed)
  /\
  exists r',
    Rx.run
      (getRouteIfTrue (S := unit)
         (fun _ : string =>
            Plain (JObject [("value", JBool true); ("score", JNumber (1 # 2))]))
         (fun _ _ => {| getRoute := getRouteDo (fun x => x) (Some (7 # 10)) |})
         None "play random") tt
    = (tt, Emit [RouteAction r'] Completed) /\
    action r' = "play random" /\
    score r' == (1 # 2) * (7 # 10).
Proof.
  split.
  - apply (proj1 (getRouteIfTrue_multiplies_match_score (S := unit)
                    (fun _ : string => Plain (JBool true))
                    (fun _ _ => {| getRoute := getRouteDo (fun x => x) (Some (7 # 10)) |})
                    None "play random" tt tt (JBool true)
                    {| action := "play random"; score := 7 # 10 |}
                    eq_refl eq_refl)).
    reflexivity.
  - apply (proj1 (proj2 (getRouteIfTrue_multiplies_match_score (S := unit)
                    (fun _ : string =>
                       Plain (JObject [("value", JBool true);
                                       ("score", JNumber (1 # 2))]))
                    (fun _ _ => {| getRoute := getRouteDo (fun x => x) (Some (7 # 10)) |})
                    None "play random" tt tt _
                    {| action := "play random"; score := 7 # 10 |}
                    eq_refl eq_refl))
             [("value", JBool true); ("score", JNumber (1 # 2))]
             (JBool true) (1 # 2) eq_refl eq_refl eq_refl eq_refl).
Defined.

(** A store of one route of score 0.5, recombined with 0.5 and with 1. *)
Lemma routeWithCombinedScore_ref_spec_witness :
  (exists h' route',
      routeWithCombinedScore_ref [{| action := "play"; score := 1 # 2 |}] 0 (1 # 2)
        = Some (h', route') /\
      h' !! 0%nat = Some {| action := "play"; score := 1 # 2 |} /\
      h' !! route' = Some {| action := "play"; score := (1 # 2) * (1 # 2) |} /\
      route' <> 0%nat)
  /\
  routeWithCombinedScore_ref [{| action := "play"; score := 1 # 2 |}] 0 1
    = Some ([{| action := "play"; score := 1 # 2 |}], 0%nat).
Proof.
  split.
  - destruct (routeWithCombinedScore_ref_spec
                [{| action := "play"; score := 1 # 2 |}] 0
                {| action := "play"; score := 1 # 2 |} (1 # 2) eq_refl)
      as (h' & route' & Hrun & Hkept & _ & _ & Hnew & _).
    exists h', route'. split; [exact Hrun|].
    split; [apply Hkept; reflexivity|].
    destruct Hnew as [Hfresh Hlook]; [intros H; discriminate H|].
    split; [exact Hlook|].
    intros ->. discriminate Hfresh.
  - destruct (routeWithCombinedScore_ref_spec
                [{| action := "play"; score := 1 # 2 |}] 0
                {| action := "play"; score := 1 # 2 |} 1 eq_refl)
      as (h' & route' & Hrun & _ & _ & _ & _ & Hsame).
    destruct Hsame as [-> ->]; [reflexivity|]. exact Hrun.
Defined.

(** [{ value: "v", score: 0 }] becomes a match of score 1, and the score
    of the match for [{ value: "v", score: 0.3 }] is not 0. *)
Lemma normalizeMatchResult_never_scores_0_witness :
  normalizeMatchResult (JObject [("value", JString "v"); ("score", JNumber 0)])
    = Ok (Match (JString "v") 1)
  /\ ~ (3 # 10) == 0.
Proof.
  split.
  - apply (proj1 normalizeMatchResult_never_scores_0
             [("value", JString "v"); ("score", JNumber 0)] (JString "v") 0);
      reflexivity.
  - apply (proj2 normalizeMatchResult_never_scores_0
             (JObject [("value", JString "v"); ("score", JNumber (3 # 10))])
             (JString "v") (3 # 10)).
    reflexivity.
Defined.

End Instances.


(** * Further properties of the kernel *)

(** ** Observables, continued *)

Section RxMoreFacts.
Context {S : Type}.
Implicit Types s : S.

Lemma delivers_just_run {A} (o : Rx.Observable S A) s a s' :
  delivers_just o s a s' -> Rx.run o s = (s', Emit [a] Completed).
Proof. induction 1; cbn; auto. Qed.



Lemma run_flatMap_just {A B} (f : A -> Rx.Observable S B)
    (o : Rx.Observable S A) s a s' :
  delivers_just o s a s' ->
  Rx.run (Rx.flatMap f o) s = Rx.run (f a) s'.
Proof.
  induction 1; cbn [Rx.flatMap Rx.run]; auto.
  rewrite run_merge_complete. apply run_inner.
Qed.

(** A source that delivers nothing gives [flatMap] nothing to do. *)
Lemma run_flatMap_silent {A B} (f : A -> Rx.Observable S B)
    (o : Rx.Observable S A) s s' e :
  Rx.run o s = (s', Emit [] e) ->
  Rx.run (Rx.flatMap f o) s = (s', Emit [] e).
Proof.
  revert s. induction o as [| | |a k IH|g k IH|g IH|k IH c]; intros s H;
    cbn [Rx.flatMap Rx.run] in *; auto;
    try (injection H as -> <-; reflexivity).
  destruct (Rx.run k s) as [s1 [vs e1]]. discriminate H.
Qed.

Lemma map_just {A B} (f : A -> Result B) (o : Rx.Observable S A) s a b s' :
  delivers_just o s a s' -> f a = Ok b ->
  delivers_just (Rx.map f o) s b s'.
Proof.
  intros H Hf. induction H; cbn [Rx.map].
  - rewrite Hf. constructor.
  - constructor. auto.
  - constructor. auto.
  - constructor. auto.
Qed.

Lemma run_map_throw {A B} (f : A -> Result B) (o : Rx.Observable S A)
    s a msg s' :
  delivers_just o s a s' -> f a = Throw msg ->
  Rx.run (Rx.map f o) s = (s', Emit [] (Failed msg)).
Proof.
  intros H Hf. induction H; cbn [Rx.map Rx.run]; auto.
  rewrite Hf. reflexivity.
Qed.

End RxMoreFacts.

(** ** [getRouteFirst$], continued *)

Section FirstMoreFacts.
Context {S Routable Action : Type}.

Local Abbreviation Route := (Route Action).
Local Abbreviation Router := (Router S Routable Action).

Implicit Types (s : S) (x : Routable) (o rest : Rx.Observable S Route).

(** X1. Whatever its routers are and do, a resolution of [getRouteFirst$]
    delivers at most one route; and if it completes, it has delivered
    exactly one, which is either actionable or the no-route of reason
    "tryInOrder". *)
Theorem getRouteFirst_answers_once (routers : list (option Router)) x s :
  (length (values (snd (Rx.run (getRouteFirst routers x) s))) <= 1)%nat
  /\
  (ending (snd (Rx.run (getRouteFirst routers x) s)) = Completed ->
   exists route,
     values (snd (Rx.run (getRouteFirst routers x) s)) = [route] /\
     (isAction route = true \/ route = RouteNo {| reason := "tryInOrder" |})).
Proof.
  unfold getRouteFirst.
  generalize (Rx.concatMap (fun router : Router => getRoute router x)
                (Rx.filterPresent (Rx.from routers))) as o.
  intros o. revert s.
  induction o as [| | |a k IH|f k IH|f IH|k IH c]; intros s;
    cbn [Rx.filter Rx.take Rx.defaultIfEmpty Rx.run]; auto.
  - cbn. split; [lia|]. intros _.
    exists (RouteNo {| reason := "tryInOrder" |}). auto.
  - cbn. split; [lia|]. discriminate.
  - cbn. split; [lia|]. discriminate.
  - destruct (isAction a) eqn:Ha; cbn [Rx.take Rx.defaultIfEmpty Rx.run]; auto.
    cbn. split; [lia|]. intros _. exists a. auto.
Qed.

Lemma first_ends_with o rest d s s' routes e :
  (forall t, Rx.silent rest t = t) ->
  Rx.run o s = (s', Emit routes e) ->
  Forall (fun r => isAction r = false) routes ->
  e <> Completed ->
  Rx.run (Rx.defaultIfEmpty d (Rx.take 1 (Rx.filter isAction (Rx.concat o rest)))) s =
  (s', Emit [] e).
Proof.
  intros Hrest. revert s routes.
  induction o as [| | |a k IH|f k IH|f IH|k IH c]; intros s routes Hrun Hno He;
    cbn [Rx.concat Rx.filter Rx.take Rx.defaultIfEmpty Rx.run] in *.
  - injection Hrun as _ _ <-. congruence.
  - injection Hrun as -> _ <-. rewrite Hrest. reflexivity.
  - injection Hrun as -> _ <-. reflexivity.
  - destruct (Rx.run k s) as [s1 [vs e1]] eqn:Hk.
    injection Hrun as -> <- ->.
    apply Forall_cons in Hno as [Ha Hvs]. rewrite Ha.
    eapply IH; eauto.
  - eapply IH; eauto.
  - eapply IH; eauto.
  - eapply IH; eauto.
Qed.

(** X2. If the routers before [R] complete with nothing but no-routes and
    the resolution of [R] fails, or never completes, before it has
    delivered an actionable route, then the resolution of
    [getRouteFirst$] ends in the same way without a route, and the routers
    after [R] are not asked. *)
Theorem getRouteFirst_stops_with_router x (pre post : list (option Router))
    (R : Router) s0 s1 s2 declined routes e :
  resolves_in_order x pre s0 declined s1 ->
  Forall (fun r => isAction r = false) declined ->
  Rx.run (getRoute R x) s1 = (s2, Emit routes e) ->
  Forall (fun r => isAction r = false) routes ->
  e <> Completed ->
  Rx.run (getRouteFirst (pre ++ Some R :: post) x) s0 = (s2, Emit [] e).
Proof.
  intros Hpre Hno HR Hroutes He.
  rewrite (getRouteFirst_declined pre _ x s0 s1 declined Hpre Hno).
  rewrite getRouteFirst_cons.
  eapply first_ends_with; [apply silent_concatMap_from| |exact Hroutes|exact He].
  rewrite run_inner. exact HR.
Qed.

Lemma first_passes_over_just o rest d s s' routes (a : Route) s2 :
  Rx.run o s = (s', Emit routes Completed) ->
  Forall (fun r => isAction r = false) routes ->
  delivers_just
    (Rx.defaultIfEmpty d (Rx.take 1 (Rx.filter isAction rest))) s' a s2 ->
  delivers_just
    (Rx.defaultIfEmpty d (Rx.take 1 (Rx.filter isAction (Rx.concat o rest)))) s a s2.
Proof.
  revert s routes.
  induction o as [| | |a0 k IH|f k IH|f IH|k IH c]; intros s routes Hrun Hno Hrest;
    cbn [Rx.concat Rx.filter Rx.take Rx.defaultIfEmpty Rx.run] in *;
    try discriminate.
  - injection Hrun as -> _. exact Hrest.
  - destruct (Rx.run k s) as [s1 [vs e]] eqn:Hk.
    injection Hrun as -> <- ->.
    apply Forall_cons in Hno as [Ha Hvs]. rewrite Ha.
    eapply IH; eauto.
  - constructor. eapply IH; eauto.
  - constructor. eapply IH; eauto.
  - constructor. eapply IH; eauto.
Qed.



Lemma getRouteFirst_declined_just (pre routers : list (option Router))
    x s s' routes (a : Route) s2 :
  resolves_in_order x pre s routes s' ->
  Forall (fun r => isAction r = false) routes ->
  delivers_just (getRouteFirst routers x) s' a s2 ->
  delivers_just (getRouteFirst (pre ++ routers) x) s a s2.
Proof.
  induction 1 as [s|pre s routes s' _ IH|r pre s s1 first rest s' Hr _ IH];
    intros Hno Hrest.
  - exact Hrest.
  - cbn [app]. rewrite getRouteFirst_absent. auto.
  - apply Forall_app in Hno as [Hfirst Hno].
    specialize (IH Hno Hrest).
    unfold getRouteFirst in *.
    cbn [app Rx.from Rx.filterPresent Rx.concatMap
         Rx.filter Rx.take Rx.defaultIfEmpty].
    constructor.
    eapply first_passes_over_just; [|exact Hfirst|exact IH].
    rewrite run_inner. exact Hr.
Qed.



Lemma getRouteFirst_gives_up (routers : list (option Router)) x s0 s1 declined :
  resolves_in_order x routers s0 declined s1 ->
  Forall (fun r => isAction r = false) declined ->
  delivers_just (getRouteFirst routers x) s0
    (RouteNo {| reason := "tryInOrder" |}) s1.
Proof.
  intros Hall Hno. rewrite <- (app_nil_r routers).
  eapply getRouteFirst_declined_just; eauto.
  constructor.
Qed.

End FirstMoreFacts.

(** ** Running the action of a route *)

Section ExecutionFacts.
Context {S Routable V : Type}.

Local Abbreviation Action := (Rx.Observable S V).
Local Abbreviation Route := (Route Action).
Local Abbreviation Router := (Router S Routable Action).

Implicit Types (s t : S) (x : Routable).

(** X3. [route$] asks the router once.  For a no-route it delivers [false]
    and runs nothing; for an actionable route it runs the action, once, in
    the state the resolution left, and delivers [true] for every value of
    the action, ending as the action ends (so an action that completes
    without a value makes [route$] deliver nothing at all). *)
Theorem route_runs_the_action (router : Router) x s s1 :
  (forall n,
      delivers_just (getRoute router x) s (RouteNo n) s1 ->
      Rx.run (route x router) s = (s1, Emit [false] Completed))
  /\
  (forall a s2 (vs : list V) e,
      delivers_just (getRoute router x) s (RouteAction a) s1 ->
      Rx.run (action a) s1 = (s2, Emit vs e) ->
      Rx.run (route x router) s = (s2, Emit (List.map (fun _ => true) vs) e)).
Proof.
  split.
  - intros n H. unfold route. rewrite (run_flatMap_just _ _ _ _ _ H).
    reflexivity.
  - intros a s2 vs e H Ha. unfold route. rewrite (run_flatMap_just _ _ _ _ _ H).
    rewrite (run_map_ok (fun _ => true)), Ha. reflexivity.
Qed.


(** X5. Resolving through [getRouteBefore$] or [getRouteAfter$] runs
    neither the handler nor any action: the state is the one the wrapped
    router leaves, the resolution ends as the wrapped one, and it delivers
    as many routes, each no-route as it was and each actionable route with
    its score. *)
Theorem getRouteBefore_After_keep_routes (handler : Routable -> Action)
    (router : Router) x s s1 routes e :
  Rx.run (getRoute router x) s = (s1, Emit routes e) ->
  (exists routes',
      Rx.run (getRouteBefore handler router x) s = (s1, Emit routes' e) /\
      Forall2 same_but_action routes routes')
  /\
  (exists routes',
      Rx.run (getRouteAfter handler router x) s = (s1, Emit routes' e) /\
      Forall2 same_but_action routes routes').
Proof.
  intros Hrun. split.
  - eexists. split.
    + unfold getRouteBefore. rewrite run_map_ok, Hrun. reflexivity.
    + clear Hrun. induction routes as [|[a|n] routes IH]; cbn; constructor;
        cbn; eauto.
  - eexists. split.
    + unfold getRouteAfter. rewrite run_map_ok, Hrun. reflexivity.
    + clear Hrun. induction routes as [|[a|n] routes IH]; cbn; constructor;
        cbn; eauto.
Qed.

(** X6. The action of a route resolved through [getRouteBefore$] runs the
    handler first and the original action after it, in the state the
    handler left.  If the handler ends without a value (it fails, or
    completes empty), the original action is not run. *)
Theorem getRouteBefore_runs_handler_first (beforeHandler : Routable -> Action)
    (router : Router) x s s1 a :
  delivers_just (getRoute router x) s (RouteAction a) s1 ->
  exists a',
    delivers_just (getRouteBefore beforeHandler router x) s (RouteAction a') s1 /\
    score a' = score a /\
    (forall t v t1,
        delivers_just (beforeHandler x) t v t1 ->
        Rx.run (action a') t = Rx.run (action a) t1) /\
    (forall t t1 e,
        Rx.run (beforeHandler x) t = (t1, Emit [] e) ->
        Rx.run (action a') t = (t1, Emit [] e)).
Proof.
  intros Hjust.
  exists {| action := Rx.flatMap (fun _ => action a) (beforeHandler x);
            score := score a |}.
  split; [|split; [reflexivity|split]].
  - unfold getRouteBefore. eapply map_just; [exact Hjust|reflexivity].
  - intros t v t1 Hh. cbn [action]. apply (run_flatMap_just _ _ _ _ _ Hh).
  - intros t t1 e Hh. cbn [action]. apply run_flatMap_silent. exact Hh.
Qed.

(** X7. The action of a route resolved through [getRouteAfter$] runs the
    original action first and the handler after it, in the state the
    action left; what the handler delivers takes the place of what the
    action delivered.  If the original action ends without a value, the
    handler is not run. *)
Theorem getRouteAfter_runs_handler_last (afterHandler : Routable -> Action)
    (router : Router) x s s1 a :
  delivers_just (getRoute router x) s (RouteAction a) s1 ->
  exists a',
    delivers_just (getRouteAfter afterHandler router x) s (RouteAction a') s1 /\
    score a' = score a /\
    (forall t v t1,
        delivers_just (action a) t v t1 ->
        Rx.run (action a') t = Rx.run (afterHandler x) t1) /\
    (forall t t1 e,
        Rx.run (action a) t = (t1, Emit [] e) ->
        Rx.run (action a') t = (t1, Emit [] e)).
Proof.
  intros Hjust.
  exists {| action := Rx.flatMap (fun _ => afterHandler x) (action a);
            score := score a |}.
  split; [|split; [reflexivity|split]].
  - unfold getRouteAfter. eapply map_just; [exact Hjust|reflexivity].
  - intros t v t1 Hh. cbn [action]. apply (run_flatMap_just _ _ _ _ _ Hh).
  - intros t t1 e Hh. cbn [action]. apply run_flatMap_silent. exact Hh.
Qed.

(** X8. A [getRouteNoop$] router runs its handler while routing and
    answers no-route for each value of the handler; so in
    [getRouteFirst$] its handler runs, once it completes the search goes
    on with the routers after it, from the state the handler left. *)
Theorem getRouteNoop_in_first (handler : Routable -> Action)
    (routers : list (option Router)) x s s1 (vs : list V) :
  Rx.run (handler x) s = (s1, Emit vs Completed) ->
  Rx.run (getRouteNoop handler x) s
    = (s1, Emit (List.map (fun _ => RouteNo {| reason := "noop" |}) vs) Completed)
  /\
  Rx.run (getRouteFirst (Some {| getRoute := getRouteNoop handler |} :: routers) x) s
    = Rx.run (getRouteFirst routers x) s1.
Proof.
  intros Hh.
  assert (Hnoop :
    Rx.run (getRouteNoop handler x) s
    = (s1, Emit (List.map (fun _ => RouteNo {| reason := "noop" |}) vs) Completed)).
  { unfold getRouteNoop.
    rewrite (run_map_ok (fun _ => RouteNo (noRoute (Some "noop")))), Hh.
    reflexivity. }
  split; [exact Hnoop|].
  apply (getRouteFirst_declined [Some {| getRoute := getRouteNoop handler |}]
           routers x s s1
           (List.map (fun _ => RouteNo {| reason := "noop" |}) vs ++ [])).
  - apply (resolves_cons x {| getRoute := getRouteNoop handler |} [] s s1 _ [] s1);
      [exact Hnoop|constructor].
  - rewrite app_nil_r. clear. induction vs; cbn; constructor; auto.
Qed.

End ExecutionFacts.

(** ** [getRouteDefault$] and [getRouteSwitch$] *)

Section FallbackFacts.
Context {S Routable Action : Type}.

Local Abbreviation Route := (Route Action).
Local Abbreviation Router := (Router S Routable Action).

Implicit Types (s : S) (x : Routable).

(** X9. [getRouteDefault$]: an actionable route of the main router comes
    back as it is, whatever the factory of default routers is; for a
    no-route, the resolution is that of the default router made from the
    no-route's reason, asked in the state the main router left, as it is;
    and if the main router ends without any route, so does the resolution,
    and no default router is asked. *)
Theorem getRouteDefault_falls_back (mainRouter : Router)
    (getDefaultRouter : Routable -> string -> Router) x s s1 :
  (forall a,
      delivers_just (getRoute mainRouter x) s (RouteAction a) s1 ->
      Rx.run (getRouteDefault mainRouter getDefaultRouter x) s
      = (s1, Emit [RouteAction a] Completed))
  /\
  (forall n,
      delivers_just (getRoute mainRouter x) s (RouteNo n) s1 ->
      Rx.run (getRouteDefault mainRouter getDefaultRouter x) s
      = Rx.run (getRoute (getDefaultRouter x (reason n)) x) s1)
  /\
  (forall e,
      Rx.run (getRoute mainRouter x) s = (s1, Emit [] e) ->
      Rx.run (getRouteDefault mainRouter getDefaultRouter x) s
      = (s1, Emit [] e)).
Proof.
  split; [|split].
  - intros a H. unfold getRouteDefault.
    rewrite (run_flatMap_just _ _ _ _ _ H). reflexivity.
  - intros n H. unfold getRouteDefault.
    rewrite (run_flatMap_just _ _ _ _ _ H). reflexivity.
  - intros e H. unfold getRouteDefault. apply run_flatMap_silent. exact H.
Qed.

(** X10. Behind [getRouteFirst$], the default router is made from the reason
    "tryInOrder" when every router declines.  Behind [getRouteBest$] it is
    never asked when there is no winner, since that resolution completes
    without a route. *)
Theorem getRouteDefault_after_first_and_best (warnNeverCalled : Action)
    (getDefaultRouter : Routable -> string -> Router)
    (routers : list (option Router)) x s0 s1 routes :
  resolves_in_order x routers s0 routes s1 ->
  (Forall (fun r => isAction r = false) routes ->
   Rx.run (getRouteDefault {| getRoute := getRouteFirst routers |}
             getDefaultRouter x) s0
   = Rx.run (getRoute (getDefaultRouter x "tryInOrder") x) s1)
  /\
  (Forall (fun c => score c <= 0) (candidates routes) ->
   Rx.run (getRouteDefault {| getRoute := getRouteBest warnNeverCalled routers |}
             getDefaultRouter x) s0
   = (s1, Emit [] Completed)).
Proof.
  intros Hall. split.
  - intros Hno. unfold getRouteDefault. cbn [getRoute].
    rewrite (run_flatMap_just _ _ _ _ _
               (getRouteFirst_gives_up routers x s0 s1 routes Hall Hno)).
    reflexivity.
  - intros Hzero. unfold getRouteDefault. cbn [getRoute].
    apply run_flatMap_silent.
    apply (getRouteBest_no_winner warnNeverCalled x routers s0 s1 routes Hall Hzero).
Qed.

Context (inherited : string -> bool).

(** X11. [getRouteSwitch$] hands the routable to the router stored under
    the key, asked in the state the computation of the key left, and its
    resolution is that router's; this also when the key is a name that the
    map object inherits. *)
Theorem getRouteSwitch_delegates (getKey : Routable -> Observableable S string)
    (mapKeyToRouter : gmap string Router) x s s1 key (router : Router) :
  delivers_just (toObservable (getKey x)) s key s1 ->
  mapKeyToRouter !! key = Some router ->
  Rx.run (getRouteSwitch inherited getKey mapKeyToRouter x) s
  = Rx.run (getRoute router x) s1
  /\
  (forall other : Router,
      Rx.run (getRouteSwitch inherited getKey (<[key := other]> mapKeyToRouter) x) s
      = Rx.run (getRoute other x) s1).
Proof.
  intros Hkey Hlook. split.
  - unfold getRouteSwitch.
    rewrite (run_flatMap_just _ _ _ _ _
               (map_just _ _ _ _ (lookupRouter inherited mapKeyToRouter key) _
                  Hkey eq_refl)).
    unfold lookupRouter. rewrite Hlook. reflexivity.
  - intros other. unfold getRouteSwitch.
    rewrite (run_flatMap_just _ _ _ _ _
               (map_just _ _ _ _
                  (lookupRouter inherited (<[key := other]> mapKeyToRouter) key) _
                  Hkey eq_refl)).
    unfold lookupRouter. rewrite lookup_insert_eq. reflexivity.
Qed.

(** X12. For a key under which nothing is stored, [getRouteSwitch$] asks
    no router at all: it delivers the no-route of the default reason
    "none"; unless the key is a name that the map object inherits, in
    which case the resolution fails with a TypeError. *)
Theorem getRouteSwitch_missing_key (getKey : Routable -> Observableable S string)
    (mapKeyToRouter : gmap string Router) x s s1 key :
  delivers_just (toObservable (getKey x)) s key s1 ->
  mapKeyToRouter !! key = None ->
  (inherited key = false ->
   Rx.run (getRouteSwitch inherited getKey mapKeyToRouter x) s
   = (s1, Emit [RouteNo {| reason := "none" |}] Completed))
  /\
  (inherited key = true ->
   Rx.run (getRouteSwitch inherited getKey mapKeyToRouter x) s
   = (s1, Emit [] (Failed "TypeError: router.getRoute$ is not a function"))).
Proof.
  intros Hkey Hlook.
  assert (Hrun :
    Rx.run (getRouteSwitch inherited getKey mapKeyToRouter x) s
    = Rx.run
        (match lookupRouter inherited mapKeyToRouter key with
         | Missing => Rx.of_ (RouteNo (noRoute None))
         | Own r => getRoute r x
         | Inherited => Rx.Error "TypeError: router.getRoute$ is not a function"
         end) s1).
  { unfold getRouteSwitch.
    rewrite (run_flatMap_just _ _ _ _ _
               (map_just _ _ _ _ (lookupRouter inherited mapKeyToRouter key) _
                  Hkey eq_refl)).
    reflexivity. }
  unfold lookupRouter in Hrun. rewrite Hlook in Hrun.
  split; intros Hin; rewrite Hin in Hrun; exact Hrun.
Qed.

End FallbackFacts.

(** ** Conditional dispatch, continued *)

Section DispatchMoreFacts.
Context {S Routable Action : Type}.

Local Abbreviation Route := (Route Action).
Local Abbreviation ActionRoute := (ActionRoute Action).
Local Abbreviation Router := (Router S Routable Action).
Local Abbreviation Matcher := (Routable -> Observableable S JsValue).

Implicit Types (s : S) (x : Routable).

(** X13. When the matcher's response normalises to a failure,
    [getRouteIfMatches$] does not ask the then-router: without an
    else-router it delivers the no-route that carries the reason of the
    failure, and with one its resolution is that of the else-router made
    from that reason. *)
Theorem getRouteIfMatches_no_match (matcher : Matcher)
    (getThenRouter : Routable -> JsValue -> Router)
    x s s1 (response : JsValue) (why : string) :
  delivers_just (toObservable (matcher x)) s response s1 ->
  normalizeMatchResult response = Ok (NoMatch why) ->
  Rx.run (getRouteIfMatches matcher getThenRouter None x) s
  = (s1, Emit [RouteNo {| reason := why |}] Completed)
  /\
  (forall getElseRouter : Routable -> string -> Router,
      Rx.run (getRouteIfMatches matcher getThenRouter (Some getElseRouter) x) s
      = Rx.run (getRoute (getElseRouter x why) x) s1).
Proof.
  intros Hm Hn.
  pose proof (map_just normalizeMatchResult _ _ _ _ _ Hm Hn) as Hjust.
  split.
  - unfold getRouteIfMatches. rewrite (run_flatMap_just _ _ _ _ _ Hjust).
    reflexivity.
  - intros getElseRouter. unfold getRouteIfMatches.
    rewrite (run_flatMap_just _ _ _ _ _ Hjust). reflexivity.
Qed.

Lemma run_map_silent {A B} (f : A -> Result B) (o : Rx.Observable S A) s s' e :
  Rx.run o s = (s', Emit [] e) ->
  Rx.run (Rx.map f o) s = (s', Emit [] e).
Proof.
  revert s. induction o as [| | |a k IH|g k IH|g IH|k IH c]; intros s H;
    cbn [Rx.map Rx.run] in *; auto;
    try (injection H as -> <-; reflexivity).
  destruct (Rx.run k s) as [s1 [vs e1]]. discriminate H.
Qed.

(** X14. A response that breaks the contract makes the resolution fail with
    the error of the normalisation, and neither the then-router nor the
    else-router is asked: for [getRouteIfMatches$] when
    [normalizeMatchResult] throws, for [getRouteIfTrue$] when the
    predicate check throws or lets through a response on which
    [normalizeMatchResult] throws. *)
Theorem dispatch_fails_on_malformed_response (matcher : Matcher)
    (getThenRouter : Routable -> JsValue -> Router) getElseRouter
    x s s1 (response : JsValue) (msg : string) :
  delivers_just (toObservable (matcher x)) s response s1 ->
  (normalizeMatchResult response = Throw msg ->
   Rx.run (getRouteIfMatches matcher getThenRouter getElseRouter x) s
   = (s1, Emit [] (Failed msg)))
  /\
  (predicateResponse response = Throw msg ->
   Rx.run (getRouteIfTrue matcher getThenRouter getElseRouter x) s
   = (s1, Emit [] (Failed msg)))
  /\
  (forall response' : JsValue,
      predicateResponse response = Ok response' ->
      normalizeMatchResult response' = Throw msg ->
      Rx.run (getRouteIfTrue matcher getThenRouter getElseRouter x) s
      = (s1, Emit [] (Failed msg))).
Proof.
  intros Hm. split; [|split].
  - intros Hn. unfold getRouteIfMatches.
    apply run_flatMap_silent. eapply run_map_throw; eauto.
  - intros Hp. unfold getRouteIfTrue, getRouteIfMatches, predicateToMatcher.
    cbn [toObservable].
    apply run_flatMap_silent, run_map_silent.
    eapply run_map_throw; eauto.
  - intros response' Hp Hn.
    unfold getRouteIfTrue, getRouteIfMatches, predicateToMatcher.
    cbn [toObservable].
    apply run_flatMap_silent.
    eapply run_map_throw; [|exact Hn].
    eapply map_just; eauto.
Qed.

Lemma routeWithCombinedScore_within_range (r : ActionRoute) (sc : number) :
  0 <= sc -> sc <= 1 -> 0 <= score r ->
  0 <= score (routeWithCombinedScore r sc) /\
  score (routeWithCombinedScore r sc) <= score r.
Proof.
  intros H0 H1 Hr. rewrite routeWithCombinedScore_score. split.
  - apply Qmult_le_0_compat; assumption.
  - rewrite <- (Qmult_1_l (score r)) at 2.
    apply Qmult_le_compat_r; assumption.
Qed.

(** X15. Through the then-branch of [getRouteIfMatches$], confidence only
    degrades: when the match score and the scores of the then-router's
    routes lie in [0, 1], every actionable route comes back with the same
    action and a score in [0, 1] that is not greater than before; the
    no-routes, the ending and the state are those of the then-router. *)
Theorem getRouteIfMatches_degrades_score (matcher : Matcher)
    (getThenRouter : Routable -> JsValue -> Router) getElseRouter
    x s s' (response v : JsValue) (sc : number) routes e :
  matcher x = Plain response ->
  normalizeMatchResult response = Ok (Match v sc) ->
  Rx.run (getRoute (getThenRouter x v) x) s = (s', Emit routes e) ->
  0 <= sc -> sc <= 1 ->
  Forall (fun c => 0 <= score c) (candidates routes) ->
  exists routes',
    Rx.run (getRouteIfMatches matcher getThenRouter getElseRouter x) s
    = (s', Emit routes' e) /\
    Forall2 same_or_lower_score routes routes'.
Proof.
  intros Hm Hn Hthen H0 H1 Hpos.
  exists (List.map (rescored sc) routes). split.
  - eapply getRouteIfMatches_match; eauto.
  - clear Hthen. induction routes as [|[a|n] routes IH]; cbn in *.
    + constructor.
    + apply Forall_cons in Hpos as [Ha Hpos].
      constructor; [|auto].
      exists (routeWithCombinedScore a sc).
      split; [reflexivity|]. split; [apply routeWithCombinedScore_action|].
      apply routeWithCombinedScore_within_range; assumption.
    + constructor; auto. reflexivity.
Qed.

End DispatchMoreFacts.

(** ** Normalisation, continued *)

Lemma normalizeMatchResult_score_not_0 response v sc :
  normalizeMatchResult response = Ok (Match v sc) -> ~ sc == 0.
Proof.
  intros H.
  assert (Hone : ~ 1 == 0) by (intros E; discriminate E).
  destruct response as [| |[|]|n|str|props]; cbn in H;
    try discriminate; try (injection H as _ <-; exact Hone).
  destruct (truthy (prop "reason" props)).
  { destruct (prop "reason" props); discriminate. }
  destruct (defined (prop "value" props)).
  2:{ injection H as _ <-; exact Hone. }
  destruct (prop "score" props) as [| |b|n|str|ps]; try discriminate.
  - injection H as _ <-; exact Hone.
  - destruct (strictEq n 0) eqn:E; cbn in H; injection H as _ <-.
    + exact Hone.
    + apply strictEq_false. exact E.
Qed.

Lemma normalizeMatchResult_value_defined response v sc :
  normalizeMatchResult response = Ok (Match v sc) -> defined v = true.
Proof.
  intros H.
  destruct response as [| |[|]|n|str|props]; cbn in H;
    try discriminate; try (injection H as <- _; reflexivity).
  destruct (truthy (prop "reason" props)).
  { destruct (prop "reason" props); discriminate. }
  destruct (defined (prop "value" props)) eqn:Hd.
  2:{ injection H as <- _; reflexivity. }
  destruct (prop "score" props) as [| |b|n|str|ps]; try discriminate;
    injection H as <- _; exact Hd.
Qed.

Lemma normalizeMatchResult_reason_truthy response why :
  normalizeMatchResult response = Ok (NoMatch why) ->
  truthy (JString why) = true.
Proof.
  intros H.
  destruct response as [| |[|]|n|str|props]; cbn in H;
    try discriminate; try (injection H as <-; reflexivity).
  destruct (truthy (prop "reason" props)) eqn:Ht.
  - destruct (prop "reason" props); try discriminate.
    injection H as <-. exact Ht.
  - destruct (defined (prop "value" props)); [|discriminate].
    destruct (prop "score" props); discriminate.
Qed.

(** X16. Normalising is idempotent: the object that [normalizeMatchResult]
    returns, [{ value, score }] or [{ reason }], normalises to itself. *)
Theorem normalizeMatchResult_idempotent response m :
  normalizeMatchResult response = Ok m ->
  normalizeMatchResult (resultObject m) = Ok m.
Proof.
  intros H. destruct m as [v sc|why]; cbn [resultObject].
  - apply normalizeMatchResult_scored with (v := v) (n := sc).
    + reflexivity.
    + reflexivity.
    + eapply normalizeMatchResult_value_defined; eauto.
    + reflexivity.
    + eapply normalizeMatchResult_score_not_0; eauto.
  - rewrite normalizeMatchResult_object.
    change (prop "reason" [("reason", JString why)]) with (JString why).
    rewrite (normalizeMatchResult_reason_truthy _ _ H). reflexivity.
Qed.

(** ** [getRouteBest$], continued *)

Section BestMoreFacts.
Context {S Routable Action : Type} (warnNeverCalled : Action).

Local Abbreviation Route := (Route Action).
Local Abbreviation ActionRoute := (ActionRoute Action).
Local Abbreviation Router := (Router S Routable Action).
Local Abbreviation Scope := (BestScope S Action).

Implicit Types (s : S) (x : Routable) (st : Scope).

Local Abbreviation remaining x routers :=
  (Rx.concatMap
     (fun router : Router => Rx.within world set_world (getRoute router x))
     (Rx.takeWhile (fun (st : Scope) (_ : Router) => ltb (score (bestRoute st)) 1)
        (Rx.filterPresent (Rx.from routers)))).

Local Abbreviation search x routers st :=
  (Rx.subscribe (remaining x routers) best_next best_error best_complete st).

Lemma sound_answer_next_complete (o : Emission Route) (r : ActionRoute) :
  sound_answer o -> 0 < score r ->
  sound_answer (observer_complete (observer_next (RouteAction r) o)).
Proof.
  unfold sound_answer. intros (Hopen & Hlen & Hall) Hr.
  destruct o as [vs [|msg|]]; cbn in *.
  - split; [discriminate|]. split; assumption.
  - split; [discriminate|]. split; assumption.
  - rewrite (Hopen eq_refl). cbn.
    split; [discriminate|]. split; [lia|].
    constructor; [eauto|constructor].
Qed.

Lemma sound_answer_complete (o : Emission Route) :
  sound_answer o -> sound_answer (observer_complete o).
Proof.
  unfold sound_answer. intros (Hopen & Hlen & Hall).
  destruct o as [vs [|msg'|]]; cbn in *.
  - split; [discriminate|]. split; assumption.
  - split; [discriminate|]. split; assumption.
  - rewrite (Hopen eq_refl) in *. cbn.
    split; [discriminate|]. split; [lia|constructor].
Qed.

Lemma sound_answer_error (o : Emission Route) msg :
  sound_answer o -> sound_answer (observer_error msg o).
Proof.
  unfold sound_answer. intros (Hopen & Hlen & Hall).
  destruct o as [vs [|msg'|]]; cbn in *.
  - split; [discriminate|]. split; assumption.
  - split; [discriminate|]. split; assumption.
  - rewrite (Hopen eq_refl) in *. cbn.
    split; [discriminate|]. split; [lia|constructor].
Qed.

Lemma best_next_sound (route : Route) st :
  sound_answer (observer st) -> sound_answer (observer (best_next route st)).
Proof.
  intros H. destruct route as [r|n]; cbn; [|exact H].
  destruct (gtb (score r) (score (bestRoute st))); [|exact H].
  destruct (strictEq (score r) 1) eqn:E; cbn; [|exact H].
  apply sound_answer_next_complete; [exact H|].
  apply strictEq_true in E. rewrite E. reflexivity.
Qed.

Lemma best_complete_sound st :
  sound_answer (observer st) -> sound_answer (observer (best_complete st)).
Proof.
  intros H. cbn.
  destruct (gtb (score (bestRoute st)) 0) eqn:E.
  - apply sound_answer_next_complete; [exact H|]. apply gtb_true. exact E.
  - apply sound_answer_complete. exact H.
Qed.

Lemma feed_sound (routes : list Route) st :
  sound_answer (observer st) ->
  sound_answer (observer (foldl (fun st' route => best_next route st') st routes)).
Proof.
  revert st. induction routes as [|route routes IH]; intros st H; cbn; auto.
  apply IH, best_next_sound, H.
Qed.

Lemma search_sound x (routers : list (option Router)) st :
  sound_answer (observer st) -> sound_answer (observer (search x routers st)).
Proof.
  revert st. induction routers as [|[R|] routers IH]; intros st H.
  - rewrite search_nil. apply best_complete_sound, H.
  - rewrite search_cons.
    destruct (ltb (score (bestRoute st)) 1); [|apply best_complete_sound, H].
    unfold deliver.
    destruct (Rx.run (getRoute R x) (world st)) as [s1 [routes [|msg|]]];
      cbn [fst snd values ending].
    + apply IH, feed_sound. exact H.
    + cbn [best_error observer]. apply sound_answer_error, feed_sound. exact H.
    + apply feed_sound. exact H.
  - rewrite search_absent. apply IH, H.
Qed.

(** X17. Whatever its routers are and do, a resolution of [getRouteBest$]
    delivers at most one route, and what it delivers is an actionable
    route of a score above 0: never a no-route. *)
Theorem getRouteBest_answers_at_most_once (routers : list (option Router)) x s :
  (length (values (snd (Rx.run (getRouteBest warnNeverCalled routers x) s))) <= 1)%nat
  /\
  Forall (fun route => exists r, route = RouteAction r /\ 0 < score r)
         (values (snd (Rx.run (getRouteBest warnNeverCalled routers x) s))).
Proof.
  rewrite run_getRouteBest. cbn [snd].
  apply (search_sound x routers
           {| bestRoute := minRoute warnNeverCalled;
              observer := Emit [] Pending; world := s |}).
  cbn. repeat split; auto.
Qed.

(** X18. If, before any candidate has reached the score 1, the resolution
    of a router fails or never completes, the resolution of
    [getRouteBest$] ends in the same way without a route: the best route
    found so far is not delivered, and the routers after it are not
    asked. *)
Theorem getRouteBest_stops_with_router x (pre post : list (option Router))
    (R : Router) s0 s1 s2 earlier routes e :
  resolves_in_order x pre s0 earlier s1 ->
  Rx.run (getRoute R x) s1 = (s2, Emit routes e) ->
  Forall (fun c => score c < 1) (candidates (earlier ++ routes)) ->
  e <> Completed ->
  Rx.run (getRouteBest warnNeverCalled (pre ++ Some R :: post) x) s0
  = (s2, Emit [] e).
Proof.
  intros Hpre HR Hbelow He.
  rewrite candidates_app in Hbelow. apply Forall_app in Hbelow as [Hearlier Hroutes].
  rewrite run_getRouteBest.
  rewrite (search_searching x pre (Some R :: post) s0 s1 earlier Hpre);
    [|reflexivity|reflexivity|cbn; lra|exact Hearlier].
  cbn [bestRoute observer world].
  remember (champion (minRoute warnNeverCalled) (candidates earlier)) as b eqn:Eb.
  assert (Hb : score b < 1).
  { subst b. apply champion_below_1; [cbn; lra|exact Hearlier]. }
  rewrite search_cons. cbn [bestRoute observer world].
  apply ltb_true in Hb as Hlt. rewrite Hlt.
  rewrite HR. unfold deliver. cbn [fst snd values ending].
  rewrite (feed_searching routes); [|reflexivity|exact Hroutes].
  destruct e as [|msg|]; [congruence| |]; reflexivity.
Qed.

End BestMoreFacts.

(** ** The earlier router *)

Section LegacyFacts.
Context {S Action : Type}.

Local Abbreviation LRoute := (LegacyRouter.Route Action).
Local Abbreviation IRouter := (LegacyRouter.IRouter S Action).
Local Abbreviation Entry := (IRouter + (JsValue -> Action))%type.

Implicit Types (s : S) (message : JsValue).

Lemma run_merge_completed {A} (o rest : Rx.Observable S A) s s1 vs :
  Rx.run o s = (s1, Emit vs Completed) ->
  Rx.run (Rx.merge o rest) s =
  (fst (Rx.run rest s1),
   Emit (vs ++ values (snd (Rx.run rest s1))) (ending (snd (Rx.run rest s1)))).
Proof.
  revert s vs. induction o as [| | |a k IH|f k IH|f IH|k IH c]; intros s vs H;
    cbn [Rx.merge Rx.run] in *; try discriminate; auto.
  - injection H as -> <-. destruct (Rx.run rest s1) as [s2 [vs' e]]. reflexivity.
  - destruct (Rx.run k s) as [s2 [vs' e]] eqn:Hk.
    injection H as -> <- ->.
    rewrite (IH s vs' Hk). reflexivity.
Qed.

Lemma run_reduce {A B} (f : B -> A -> B) (seed : B) (o : Rx.Observable S A)
    s s' vs :
  Rx.run o s = (s', Emit vs Completed) ->
  Rx.run (RxMore.reduce f seed o) s = (s', Emit [foldl f seed vs] Completed).
Proof.
  revert seed s vs. induction o as [| | |a k IH|g k IH|g IH|k IH c]; intros seed s vs H;
    cbn [RxMore.reduce Rx.run] in *; try discriminate; auto.
  - injection H as -> <-. reflexivity.
  - destruct (Rx.run k s) as [s2 [vs' e]] eqn:Hk.
    injection H as -> <- ->.
    rewrite (IH _ s vs' Hk). reflexivity.
Qed.

Lemma run_all_routers message (routers : list (option Entry)) s0 s1 routes :
  LegacyRouter.answer_in_order message routers s0 routes s1 ->
  Rx.run
    (Rx.flatMap (fun router => LegacyRouter.getRoute router message)
       (LegacyRouter.filteredRouter routers)) s0
  = (s1, Emit routes Completed).
Proof.
  induction 1 as [s|routers s routes s' _ IH|r routers s s2 first rest s' Hr _ IH].
  - reflexivity.
  - exact IH.
  - unfold LegacyRouter.filteredRouter in *.
    cbn [Rx.from Rx.filterPresent Rx.map Rx.flatMap Rx.run].
    rewrite (run_merge_completed _ _ s s2 first), IH; [reflexivity|].
    rewrite run_inner. exact Hr.
Qed.

(** After the candidates [cands], met in order from [seed], the reducer of
    the earlier [best] holds the seed, if every candidate scored lower, or
    else the last candidate of the highest score. *)
Lemma better_spec (seed : LRoute) (cands : list LRoute) :
  (foldl LegacyRouter.better seed cands = seed /\
   forall j c, cands !! j = Some c ->
               LegacyRouter.scoreOr1 c < LegacyRouter.scoreOr1 seed)
  \/
  (exists i,
      cands !! i = Some (foldl LegacyRouter.better seed cands) /\
      LegacyRouter.scoreOr1 seed
        <= LegacyRouter.scoreOr1 (foldl LegacyRouter.better seed cands) /\
      (forall j c, cands !! j = Some c ->
                   LegacyRouter.scoreOr1 c
                     <= LegacyRouter.scoreOr1 (foldl LegacyRouter.better seed cands)) /\
      (forall j c, (i < j)%nat -> cands !! j = Some c ->
                   LegacyRouter.scoreOr1 c
                     < LegacyRouter.scoreOr1 (foldl LegacyRouter.better seed cands))).
Proof.
  induction cands as [|c cands IH] using rev_ind.
  - left. split; [reflexivity|]. intros j c H. destruct j; discriminate.
  - rewrite foldl_app. cbn [foldl].
    remember (foldl LegacyRouter.better seed cands) as w eqn:Ew.
    unfold LegacyRouter.better.
    destruct (gtb (LegacyRouter.scoreOr1 w) (LegacyRouter.scoreOr1 c)) eqn:E.
    + apply gtb_true in E.
      destruct IH as [[Heq Hlt]|(i & Hi & Hseed & Hle & Hlater)].
      * left. split; [exact Heq|].
        intros j c' H. apply lookup_app_Some in H as [H|[_ H]]; [eauto|].
        destruct (j - length cands)%nat; [|discriminate].
        injection H as <-. rewrite <- Heq. exact E.
      * right. exists i. repeat split.
        -- apply lookup_app_Some. left. exact Hi.
        -- exact Hseed.
        -- intros j c' H. apply lookup_app_Some in H as [H|[_ H]]; [eauto|].
           destruct (j - length cands)%nat; [|discriminate].
           injection H as <-. lra.
        -- intros j c' Hj H. apply lookup_app_Some in H as [H|[_ H]]; [eauto|].
           destruct (j - length cands)%nat; [|discriminate].
           injection H as <-. exact E.
    + apply gtb_false in E.
      right. exists (length cands). repeat split.
      * apply lookup_app_Some. right. split; [lia|].
        rewrite Nat.sub_diag. reflexivity.
      * destruct IH as [[Heq _]|(_ & _ & Hseed & _)].
        -- rewrite <- Heq. exact E.
        -- lra.
      * intros j c' H. apply lookup_app_Some in H as [H|[_ H]].
        -- destruct IH as [[Heq Hlt]|(_ & _ & _ & Hle & _)].
           ++ apply Hlt in H. rewrite <- Heq in H. lra.
           ++ apply Hle in H. lra.
        -- destruct (j - length cands)%nat; [|discriminate].
           injection H as <-. lra.
      * intros j c' Hj H. apply lookup_app_Some in H as [H|[_ H]].
        -- apply lookup_lt_Some in H. lia.
        -- destruct (j - length cands)%nat eqn:Ej; [lia|].
           destruct n; discriminate.
Qed.

(** X19. The earlier [best] asks every router and always delivers exactly
    one route when they all complete: the last of the routes of the
    highest score (a missing score counting as 1), or, when there is no
    route of a score of at least 0, and so when no router proposes
    anything, its own [minRoute] of score 0. *)
Theorem legacy_best_last_of_highest_score (neverCalled : Action) message
    (routers : list (option Entry)) s0 s1 (routes : list LRoute) :
  LegacyRouter.answer_in_order message routers s0 routes s1 ->
  exists winner,
    Rx.run (LegacyRouter.getRoute (LegacyRouter.best neverCalled routers) message) s0
    = (s1, Emit [winner] Completed) /\
    ((winner = LegacyRouter.minRoute neverCalled /\
      forall j c, routes !! j = Some c -> LegacyRouter.scoreOr1 c < 0)
     \/
     (exists i,
         routes !! i = Some winner /\
         (forall j c, routes !! j = Some c ->
                      LegacyRouter.scoreOr1 c <= LegacyRouter.scoreOr1 winner) /\
         (forall j c, (i < j)%nat -> routes !! j = Some c ->
                      LegacyRouter.scoreOr1 c < LegacyRouter.scoreOr1 winner))).
Proof.
  intros Hall.
  exists (foldl LegacyRouter.better (LegacyRouter.minRoute neverCalled) routes).
  split.
  - unfold LegacyRouter.best. cbn [LegacyRouter.getRoute].
    apply run_reduce, run_all_routers, Hall.
  - destruct (better_spec (LegacyRouter.minRoute neverCalled) routes)
      as [[Heq Hlt]|(i & Hi & _ & Hle & Hlater)].
    + left. split; [exact Heq|exact Hlt].
    + right. exists i. auto.
Qed.







(** X21. [prependMatcher]: when the matcher answers [true], the router is
    asked with the message itself; when it answers another truthy value,
    the router is asked with that value; when it answers a falsy value
    ([undefined], [null], [false], 0, the empty string), the router is not
    asked and the resolution completes without a route. *)
Theorem prependMatcher_dispatch (matcher : JsValue -> Observableable S JsValue)
    (router : IRouter) message (response : JsValue) s :
  matcher message = Plain response ->
  (truthy response = false ->
   Rx.run (LegacyRouter.getRoute (LegacyRouter.prependMatcher matcher router) message) s
   = (s, Emit [] Completed))
  /\
  (response = JBool true ->
   Rx.run (LegacyRouter.getRoute (LegacyRouter.prependMatcher matcher router) message) s
   = Rx.run (LegacyRouter.getRoute router message) s)
  /\
  (truthy response = true -> typeof response <> "boolean" ->
   Rx.run (LegacyRouter.getRoute (LegacyRouter.prependMatcher matcher router) message) s
   = Rx.run (LegacyRouter.getRoute router response) s).
Proof.
  intros Hm.
  unfold LegacyRouter.prependMatcher, Legacy.matchize, Legacy.toFilteredObservable.
  cbn [LegacyRouter.getRoute]. rewrite Hm.
  split; [|split].
  - intros Ht. rewrite Ht. reflexivity.
  - intros ->. cbn. rewrite run_merge_complete. apply run_inner.
  - intros Ht Hty. rewrite Ht. cbn [Rx.of_ Rx.map Rx.flatMap].
    destruct response; cbn in *; try congruence;
      rewrite run_merge_complete; apply run_inner.
Qed.

End LegacyFacts.

Section LegacyRunFacts.
Context {S V : Type}.

Local Abbreviation Action := (Rx.Observable S V).
Local Abbreviation Entry :=
  (LegacyRouter.IRouter S Action + (JsValue -> Action))%type.

Lemma reduce_just {A B} (f : B -> A -> B) (seed : B) (o : Rx.Observable S A)
    (s s' : S) vs :
  Rx.run o s = (s', Emit vs Completed) ->
  delivers_just (RxMore.reduce f seed o) s (foldl f seed vs) s'.
Proof.
  revert seed s vs. induction o as [| | |a k IH|g k IH|g IH|k IH c]; intros seed s vs H;
    cbn [RxMore.reduce Rx.run] in *; try discriminate.
  - injection H as -> <-. constructor.
  - destruct (Rx.run k s) as [s2 [vs' e]] eqn:Hk.
    injection H as -> <- ->. cbn [foldl]. apply IH. exact Hk.
  - constructor. apply IH. exact H.
  - constructor. apply IH. exact H.
  - constructor. apply IH. exact H.
Qed.

(** X22. [routeMessage] over the earlier [best] runs the action of the
    winning route, in the state in which the routers were all asked; when
    no router proposes a route, the action it runs is that of [minRoute],
    the one meant never to be called. *)
Theorem legacy_routeMessage_best (neverCalled : Action) (message : JsValue)
    (routers : list (option Entry)) (s0 s1 : S) routes :
  LegacyRouter.answer_in_order message routers s0 routes s1 ->
  Rx.run (LegacyRouter.routeMessage (LegacyRouter.best neverCalled routers) message) s0
  = Rx.run
      (LegacyRouter.action
         (foldl LegacyRouter.better (LegacyRouter.minRoute neverCalled) routes)) s1
  /\
  (routes = [] ->
   Rx.run (LegacyRouter.routeMessage (LegacyRouter.best neverCalled routers) message) s0
   = Rx.run neverCalled s1).
Proof.
  intros Hall.
  assert (Hrun :
    Rx.run (LegacyRouter.routeMessage (LegacyRouter.best neverCalled routers) message) s0
    = Rx.run
        (LegacyRouter.action
           (foldl LegacyRouter.better (LegacyRouter.minRoute neverCalled) routes)) s1).
  { unfold LegacyRouter.routeMessage, LegacyRouter.best.
    cbn [LegacyRouter.getRoute].
    apply run_flatMap_just, reduce_just, run_all_routers, Hall. }
  split; [exact Hrun|].
  intros ->. exact Hrun.
Qed.

End LegacyRunFacts.

(** ** The further theorems at work on concrete routers *)

Section MoreInstances.
Import Examples MoreExamples.

(** The broken router 1 ends the search of [first]: the spy 2 is not
    asked. *)
Lemma getRouteFirst_stops_with_router_witness :
  Rx.run
    (getRouteFirst
       [Some (spy 0 (no "nope")); Some (broken 1); Some (spy 2 (act "play" 1))]
       "play random") []
  = ([0; 1]%nat, Emit [] (Failed "boom")).
Proof.
  apply (getRouteFirst_stops_with_router "play random"
           [Some (spy 0 (no "nope"))] [Some (spy 2 (act "play" 1))] (broken 1)
           [] [0%nat] [0; 1]%nat ([no "nope"] ++ []) [] (Failed "boom")).
  - apply (resolves_cons _ _ _ [] [0%nat] [no "nope"] [] [0%nat]);
      [reflexivity|apply resolves_nil].
  - repeat constructor.
  - reflexivity.
  - constructor.
  - discriminate.
Defined.

(** [route$] on a router that answers with an action, and on one that
    declines. *)
Lemma route_runs_the_action_witness :
  Rx.run (route "play random" (asked 0 (doing 1 1))) []
  = ([0; 1]%nat, Emit [true] Completed)
  /\
  Rx.run (route "play random" (asked 0 (declining "nope"))) []
  = ([0%nat], Emit [false] Completed).
Proof.
  split.
  - apply (proj2 (route_runs_the_action (asked 0 (doing 1 1)) "play random"
                    [] [0%nat])
             {| action := logging 1; score := 1 |} [0; 1]%nat [JUndefined] Completed).
    + apply delivers_just_do, delivers_just_of.
    + reflexivity.
  - apply (proj1 (route_runs_the_action (asked 0 (declining "nope")) "play random"
                    [] [0%nat])
             {| reason := "nope" |}).
    apply delivers_just_do, delivers_just_of.
Defined.


(** Resolving through [before] and [after] leaves the handler 5 and the
    action 1 alone. *)
Lemma getRouteBefore_After_keep_routes_witness :
  (exists routes',
      Rx.run (getRouteBefore (fun _ => logging 5) (asked 0 (doing 1 (1 # 2)))
                "play random") []
      = ([0%nat], Emit routes' Completed) /\
      Forall2 same_but_action [doing 1 (1 # 2)] routes')
  /\
  (exists routes',
      Rx.run (getRouteAfter (fun _ => logging 5) (asked 0 (doing 1 (1 # 2)))
                "play random") []
      = ([0%nat], Emit routes' Completed) /\
      Forall2 same_but_action [doing 1 (1 # 2)] routes').
Proof.
  apply (getRouteBefore_After_keep_routes (fun _ => logging 5)
           (asked 0 (doing 1 (1 # 2))) "play random" [] [0%nat]
           [doing 1 (1 # 2)] Completed).
  reflexivity.
Defined.

(** The action made by [before] runs the handler 5, then the action 1. *)
Lemma getRouteBefore_runs_handler_first_witness :
  exists a',
    delivers_just
      (getRouteBefore (fun _ => logging 5) (asked 0 (doing 1 (1 # 2))) "play random")
      [] (RouteAction a') [0%nat] /\
    score a' = 1 # 2 /\
    Rx.run (action a') [0%nat] = ([0; 5; 1]%nat, Emit [JUndefined] Completed).
Proof.
  destruct (getRouteBefore_runs_handler_first (fun _ => logging 5)
              (asked 0 (doing 1 (1 # 2))) "play random" [] [0%nat]
              {| action := logging 1; score := 1 # 2 |})
    as (a' & Hjust & Hscore & Horder & _).
  - apply delivers_just_do, delivers_just_of.
  - exists a'. split; [exact Hjust|]. split; [exact Hscore|].
    rewrite (Horder [0%nat] JUndefined [0; 5]%nat).
    + reflexivity.
    + apply delivers_just_do, delivers_just_of.
Defined.

(** The action made by [after] runs the action 1, then the handler 5; and
    when the action fails, the handler is not run. *)
Lemma getRouteAfter_runs_handler_last_witness :
  (exists a',
      delivers_just
        (getRouteAfter (fun _ => logging 5) (asked 0 (doing 1 (1 # 2))) "play random")
        [] (RouteAction a') [0%nat] /\
      Rx.run (action a') [0%nat] = ([0; 1; 5]%nat, Emit [JUndefined] Completed))
  /\
  (exists a',
      delivers_just
        (getRouteAfter (fun _ => logging 5)
           (asked 0 (RouteAction {| action := failing 1; score := 1 |}))
           "play random")
        [] (RouteAction a') [0%nat] /\
      Rx.run (action a') [0%nat] = ([0; 1]%nat, Emit [] (Failed "boom"))).
Proof.
  split.
  - destruct (getRouteAfter_runs_handler_last (fun _ => logging 5)
                (asked 0 (doing 1 (1 # 2))) "play random" [] [0%nat]
                {| action := logging 1; score := 1 # 2 |})
      as (a' & Hjust & _ & Horder & _).
    + apply delivers_just_do, delivers_just_of.
    + exists a'. split; [exact Hjust|].
      rewrite (Horder [0%nat] JUndefined [0; 1]%nat).
      * reflexivity.
      * apply delivers_just_do, delivers_just_of.
  - destruct (getRouteAfter_runs_handler_last (fun _ => logging 5)
                (asked 0 (RouteAction {| action := failing 1; score := 1 |}))
                "play random" [] [0%nat]
                {| action := failing 1; score := 1 |})
      as (a' & Hjust & _ & _ & Hfail).
    + apply delivers_just_do, delivers_just_of.
    + exists a'. split; [exact Hjust|].
      apply Hfail. reflexivity.
Defined.

(** A no-op router in [first]: its handler 7 has run when router 1 is
    asked. *)
Lemma getRouteNoop_in_first_witness :
  Rx.run
    (getRouteFirst
       [Some {| getRoute := getRouteNoop (fun _ => logging 7) |};
        Some (asked 1 (doing 10 1))]
       "play random") []
  = ([7; 1]%nat, Emit [doing 10 1] Completed).
Proof.
  rewrite (proj2 (getRouteNoop_in_first (fun _ => logging 7)
                    [Some (asked 1 (doing 10 1))] "play random" [] [7%nat]
                    [JUndefined] eq_refl)).
  reflexivity.
Defined.

(** [default]: the main router 0 declines with "nope", and the default
    router 1 is made from that reason; an actionable route of the main
    router comes back as it is. *)
Lemma getRouteDefault_falls_back_witness :
  Rx.run
    (getRouteDefault (spy 0 (no "nope")) (fun _ why => spy 1 (no why))
       "play random") []
  = ([0; 1]%nat, Emit [no "nope"] Completed)
  /\
  Rx.run
    (getRouteDefault (spy 0 (act "play" 1)) (fun _ why => spy 1 (no why))
       "play random") []
  = ([0%nat], Emit [act "play" 1] Completed).
Proof.
  split.
  - rewrite (proj1 (proj2 (getRouteDefault_falls_back (spy 0 (no "nope"))
                             (fun _ why => spy 1 (no why)) "play random"
                             [] [0%nat]))
               {| reason := "nope" |}).
    + reflexivity.
    + apply delivers_just_do, delivers_just_of.
  - apply (proj1 (getRouteDefault_falls_back (spy 0 (act "play" 1))
                    (fun _ why => spy 1 (no why)) "play random" [] [0%nat])
             {| action := "play"; score := 1 |}).
    apply delivers_just_do, delivers_just_of.
Defined.

(** [default] behind [first] and behind [best], over one router that
    declines: the default router 9 is asked in the first case only. *)
Lemma getRouteDefault_after_first_and_best_witness :
  Rx.run
    (getRouteDefault {| getRoute := getRouteFirst [Some (spy 0 (no "nope"))] |}
       (fun _ why => spy 9 (no why)) "play random") []
  = ([0; 9]%nat, Emit [no "tryInOrder"] Completed)
  /\
  Rx.run
    (getRouteDefault
       {| getRoute := getRouteBest "warn" [Some (spy 0 (no "nope"))] |}
       (fun _ why => spy 9 (no why)) "play random") []
  = ([0%nat], Emit [] Completed).
Proof.
  destruct (getRouteDefault_after_first_and_best "warn"
              (fun _ why => spy 9 (no why)) [Some (spy 0 (no "nope"))]
              "play random" [] [0%nat] ([no "nope"] ++ []))
    as [Hfirst Hbest].
  - apply (resolves_cons _ _ _ [] [0%nat] [no "nope"] [] [0%nat]);
      [reflexivity|apply resolves_nil].
  - split.
    + rewrite Hfirst; [reflexivity|repeat constructor].
    + apply Hbest. constructor.
Defined.

(** [switch] on the key "play", stored in the map. *)
Lemma getRouteSwitch_delegates_witness :
  Rx.run
    (getRouteSwitch objectPrototype (fun x => Plain x)
       (<["play" := spy 1 (act "play" 1)]> ∅) "play") []
  = ([1%nat], Emit [act "play" 1] Completed).
Proof.
  rewrite (proj1 (getRouteSwitch_delegates objectPrototype (fun x => Plain x)
                    (<["play" := spy 1 (act "play" 1)]> ∅) "play" [] [] "play"
                    (spy 1 (act "play" 1))
                    (delivers_just_of "play" [])
                    (lookup_insert_eq _ "play" _))).
  reflexivity.
Defined.

(** [switch] on the keys "stop" and "toString", neither stored in the
    map. *)
Lemma getRouteSwitch_missing_key_witness :
  Rx.run
    (getRouteSwitch objectPrototype (fun x => Plain x)
       (<["play" := spy 1 (act "play" 1)]> ∅) "stop") []
  = ([], Emit [no "none"] Completed)
  /\
  Rx.run
    (getRouteSwitch objectPrototype (fun x => Plain x)
       (<["play" := spy 1 (act "play" 1)]> ∅) "toString") []
  = ([], Emit [] (Failed "TypeError: router.getRoute$ is not a function")).
Proof.
  assert (Hmiss : forall key : string,
             key <> "play" ->
             (<["play" := spy 1 (act "play" 1)]> ∅ : gmap string _) !! key = None).
  { intros key Hne. rewrite lookup_insert_ne by congruence. apply lookup_empty. }
  split.
  - apply (proj1 (getRouteSwitch_missing_key objectPrototype (fun x => Plain x)
                    (<["play" := spy 1 (act "play" 1)]> ∅) "stop" [] [] "stop"
                    (delivers_just_of "stop" [])
                    (Hmiss "stop" ltac:(discriminate)))).
    reflexivity.
  - apply (proj2 (getRouteSwitch_missing_key objectPrototype (fun x => Plain x)
                    (<["play" := spy 1 (act "play" 1)]> ∅) "toString" [] [] "toString"
                    (delivers_just_of "toString" [])
                    (Hmiss "toString" ltac:(discriminate)))).
    reflexivity.
Defined.

(** A matcher that fails with a reason, without and with an else-router. *)
Lemma getRouteIfMatches_no_match_witness :
  Rx.run
    (getRouteIfMatches
       (fun _ => Plain (JObject [("reason", JString "not a song")]))
       (fun _ _ => spy 1 (act "play" 1)) None "play random") []
  = ([], Emit [no "not a song"] Completed)
  /\
  Rx.run
    (getRouteIfMatches
       (fun _ => Plain (JObject [("reason", JString "not a song")]))
       (fun _ _ => spy 1 (act "play" 1)) (Some (fun _ why => spy 2 (no why)))
       "play random") []
  = ([2%nat], Emit [no "not a song"] Completed).
Proof.
  destruct (getRouteIfMatches_no_match
              (fun _ : string => Plain (JObject [("reason", JString "not a song")]))
              (fun _ _ => spy 1 (act "play" 1)) "play random" [] []
              (JObject [("reason", JString "not a song")]) "not a song"
              (delivers_just_of _ []) eq_refl)
    as [Hnone Helse].
  split; [exact Hnone|].
  rewrite Helse. reflexivity.
Defined.

(** A matcher whose reason is a number, and a predicate that answers a
    number. *)
Lemma dispatch_fails_on_malformed_response_witness :
  Rx.run
    (getRouteIfMatches
       (fun _ => Plain (JObject [("reason", JNumber 5)]))
       (fun _ _ => spy 1 (act "play" 1)) None "play random") []
  = ([], Emit [] (Failed "The reason for NoMatch must be a string"))
  /\
  Rx.run
    (getRouteIfTrue
       (fun _ => Plain (JNumber 5))
       (fun _ _ => spy 1 (act "play" 1)) None "play random") []
  = ([], Emit []
       (Failed "A predicate may only return true, false, a Match of true or false, or a NoMatch")).
Proof.
  split.
  - apply (proj1 (dispatch_fails_on_malformed_response
                    (fun _ : string => Plain (JObject [("reason", JNumber 5)]))
                    (fun _ _ => spy 1 (act "play" 1)) None "play random" [] []
                    (JObject [("reason", JNumber 5)])
                    "The reason for NoMatch must be a string"
                    (delivers_just_of _ []))).
    reflexivity.
  - apply (proj1 (proj2 (dispatch_fails_on_malformed_response
                    (fun _ : string => Plain (JNumber 5))
                    (fun _ _ => spy 1 (act "play" 1)) None "play random" [] []
                    (JNumber 5)
                    "A predicate may only return true, false, a Match of true or false, or a NoMatch"
                    (delivers_just_of _ [])))).
    reflexivity.
Defined.

(** A match of score 0.5 before a router that answers with score 0.8. *)
Lemma getRouteIfMatches_degrades_score_witness :
  exists routes',
    Rx.run
      (getRouteIfMatches
         (fun _ => Plain (JObject [("value", JString "song"); ("score", JNumber (1 # 2))]))
         (fun _ _ => spy 1 (act "play" (4 # 5))) None "play random") []
    = ([1%nat], Emit routes' Completed) /\
    Forall2 same_or_lower_score [act "play" (4 # 5)] routes'.
Proof.
  apply (getRouteIfMatches_degrades_score
           (fun _ : string =>
              Plain (JObject [("value", JString "song"); ("score", JNumber (1 # 2))]))
           (fun _ _ => spy 1 (act "play" (4 # 5))) None "play random" [] [1%nat]
           (JObject [("value", JString "song"); ("score", JNumber (1 # 2))])
           (JString "song") (1 # 2) [act "play" (4 # 5)] Completed
           eq_refl eq_refl eq_refl).
  - discriminate.
  - discriminate.
  - constructor; [discriminate|constructor].
Defined.

(** What [{ value: "v", score: 0 }] normalises to normalises to itself. *)
Lemma normalizeMatchResult_idempotent_witness :
  normalizeMatchResult (resultObject (Match (JString "v") 1))
  = Ok (Match (JString "v") 1).
Proof.
  apply (normalizeMatchResult_idempotent
           (JObject [("value", JString "v"); ("score", JNumber 0)])).
  reflexivity.
Defined.

(** The broken router 1 ends the search of [best]: the route found by
    router 0 is lost and the spy 2 is not asked. *)
Lemma getRouteBest_stops_with_router_witness :
  Rx.run
    (getRouteBest "warn"
       [Some (spy 0 (act "maybe" (1 # 2))); Some (broken 1);
        Some (spy 2 (act "sure" 1))]
       "play random") []
  = ([0; 1]%nat, Emit [] (Failed "boom")).
Proof.
  apply (getRouteBest_stops_with_router "warn" "play random"
           [Some (spy 0 (act "maybe" (1 # 2)))] [Some (spy 2 (act "sure" 1))]
           (broken 1) [] [0%nat] [0; 1]%nat ([act "maybe" (1 # 2)] ++ []) []
           (Failed "boom")).
  - apply (resolves_cons _ _ _ [] [0%nat] [act "maybe" (1 # 2)] [] [0%nat]);
      [reflexivity|apply resolves_nil].
  - reflexivity.
  - repeat constructor.
  - discriminate.
Defined.

(** The earlier [best] on two routes of score 0.5: both routers are asked
    and the theorem leaves no choice but the second route. *)
Lemma legacy_best_last_of_highest_score_witness :
  Rx.run
    (LegacyRouter.getRoute
       (LegacyRouter.best "never"
          [Some (inl (proposing 0 [scored "a" (1 # 2)]));
           Some (inl (proposing 1 [scored "b" (1 # 2)]))])
       (JString "hi")) []
  = ([0; 1]%nat, Emit [scored "b" (1 # 2)] Completed).
Proof.
  destruct (legacy_best_last_of_highest_score "never" (JString "hi")
              [Some (inl (proposing 0 [scored "a" (1 # 2)]));
               Some (inl (proposing 1 [scored "b" (1 # 2)]))]
              [] [0; 1]%nat ([scored "a" (1 # 2)] ++ [scored "b" (1 # 2)] ++ []))
    as (winner & Hrun & [[_ Hlow]|(i & Hi & Hle & Hlater)]).
  - apply (LegacyRouter.answer_cons _ _ _ [] [0%nat] [scored "a" (1 # 2)] _
             [0; 1]%nat); [reflexivity|].
    apply (LegacyRouter.answer_cons _ _ _ [0%nat] [0; 1]%nat [scored "b" (1 # 2)] []
             [0; 1]%nat); [reflexivity|].
    apply LegacyRouter.answer_nil.
  - exfalso. discriminate (Hlow 0%nat (scored "a" (1 # 2)) eq_refl).
  - destruct i as [|[|i]]; cbn in Hi; try discriminate Hi.
    + exfalso. assert (H : (0 < 1)%nat) by lia.
      injection Hi as <-.
      discriminate (Hlater 1%nat (scored "b" (1 # 2)) H eq_refl).
    + injection Hi as <-. exact Hrun.
Defined.


(** [prependMatcher] with a matcher that answers [true], and with one that
    answers [false]. *)
Lemma prependMatcher_dispatch_witness :
  Rx.run
    (LegacyRouter.getRoute
       (LegacyRouter.prependMatcher (fun _ => Plain (JBool true))
          (proposing 0 [scored "a" 1]))
       (JString "hi")) []
  = ([0%nat], Emit [scored "a" 1] Completed)
  /\
  Rx.run
    (LegacyRouter.getRoute
       (LegacyRouter.prependMatcher (fun _ => Plain (JBool false))
          (proposing 0 [scored "a" 1]))
       (JString "hi")) []
  = ([], Emit [] Completed).
Proof.
  split.
  - rewrite (proj1 (proj2 (prependMatcher_dispatch (fun _ => Plain (JBool true))
                             (proposing 0 [scored "a" 1]) (JString "hi")
                             (JBool true) [] eq_refl)) eq_refl).
    reflexivity.
  - apply (proj1 (prependMatcher_dispatch (fun _ => Plain (JBool false))
                    (proposing 0 [scored "a" 1]) (JString "hi")
                    (JBool false) [] eq_refl)).
    reflexivity.
Defined.

(** [routeMessage] over the earlier [best] of no router at all runs the
    action 99 of [minRoute]. *)
Lemma legacy_routeMessage_best_witness :
  Rx.run
    (LegacyRouter.routeMessage (LegacyRouter.best (logging 99) []) (JString "hi")) []
  = ([99%nat], Emit [JUndefined] Completed).
Proof.
  rewrite (proj2 (legacy_routeMessage_best (logging 99) (JString "hi") [] [] [] []
                    (LegacyRouter.answer_nil _ [])) eq_refl).
  reflexivity.
Defined.

End MoreInstances.
